(** * joiql: Joi descriptions to a GraphQL type graph

    A shallow embedding of [src/index.js] and the properties of its
    translator, type cache, union synthesizer and validated resolvers.

    Conventions of the embedding.
    - The two module-level mutable objects of the source, [cachedTypes]
      and lodash's [uniqueId] counter, together with the store of the
      GraphQL type objects created by [new], form the [state] that every
      build-time function threads.  A type object is referred to by its
      location in the store, so that two references are equal exactly
      when they denote the same JavaScript object.
    - A JavaScript exception is the [Throw] outcome of a computation.
    - A Joi schema found in metadata ([args]) is represented by its
      description, i.e. by the result of [schema.describe()].
    - An absent property and an empty container behave alike at every
      use the source makes of [meta], [rules] and [children]
      ([map], [find], [mapValues], [keys], [assign] all treat [undefined]
      as empty), so these are lists, the empty list standing for both.
      [items] is different: [describe()] gives an array description its
      [items] only when the array has item schemas, and line 84 calls
      [desc.items.filter].  An empty [items] list stands for the absent
      property, on which that call throws.
    - Property names inherited from [Object.prototype] (such as
      ["toString"], see [objectPrototypeKeys]) are outside the model:
      [cachedTypes] and the kind dispatch table are read as finite maps
      of their own keys, and kinds and type names are taken not to be
      such names.
    - The constructors of the type objects of graphql-js are data
      constructors: [new] creates the node it is given.  graphql-js
      refuses some nodes (a type without a name, a non-null type of a
      non-null type); the properties that say which node a translation
      creates exclude them by hypothesis.  The schema constructor's
      demand for a query root is part of [joiql].
    - Descriptions are values.  The one write the source makes to a
      description, lodash's [assign] extending the children of the first
      candidate in [makeArrayAlternativeType], is not followed.  It is
      read again only where an enclosing input synthesis translates the
      children of its own candidates a second time (line 120), after
      line 114 has translated them once; [describe()] builds a new tree
      on every call. *)

From Stdlib Require Import Ascii DecimalString DecimalNat.
From stdpp Require Import base gmap list strings.

Set Warnings "-register-all".

(** ** JavaScript values and errors *)

Inductive value :=
  | VUndefined
  | VNull
  | VBool (b : bool)
  | VNum (z : Z)
  | VStr (s : string)
  | VArr (elems : list value)
  | VObj (props : list (string * value)).

Inductive exn :=
  | TypeError (msg : string)
  | ValidationError (msg : string)
  | LibraryError (msg : string)
  | UserError (v : value).

(** [TypeError] is what the engine raises when a non-function is called
    or a property of [undefined] is read; [LibraryError] is the plain
    [Error] of a failed check of graphql-js. *)
Definition isGenericInvocationError (e : exn) : bool :=
  match e with TypeError _ => true | _ => false end.

Definition truthy (v : value) : bool :=
  match v with
  | VUndefined | VNull => false
  | VBool b => b
  | VNum z => negb (Z.eqb z 0)
  | VStr s => negb (String.eqb s "")
  | VArr _ | VObj _ => true
  end.

Definition string_of_nat (n : nat) : string :=
  NilEmpty.string_of_uint (Nat.to_uint n).

(** lodash [keys]: the own enumerable property names, in enumeration
    order; empty for [undefined], [null], numbers and booleans. *)
Definition keys (v : value) : list string :=
  match v with
  | VObj props => map fst props
  | VArr elems => map string_of_nat (seq 0 (length elems))
  | VStr s => map string_of_nat (seq 0 (String.length s))
  | _ => []
  end.

(** lodash [isEmpty]. *)
Definition isEmpty (v : value) : bool :=
  match v with
  | VObj props => match props with [] => true | _ => false end
  | VArr elems => match elems with [] => true | _ => false end
  | VStr s => String.eqb s ""
  | _ => true
  end.

(** lodash [isEqual] on two arrays of strings: element-wise, in order. *)
Fixpoint isEqual (a b : list string) : bool :=
  match a, b with
  | [], [] => true
  | x :: a', y :: b' => String.eqb x y && isEqual a' b'
  | _, _ => false
  end.

(** Property read [v[k]]; [None] stands for the TypeError raised when
    [v] is [undefined] or [null]. *)
Fixpoint assoc {A} (k : string) (l : list (string * A)) : option A :=
  match l with
  | [] => None
  | (k', a) :: l' => if String.eqb k' k then Some a else assoc k l'
  end.

Definition getProp (v : value) (k : string) : option value :=
  match v with
  | VUndefined | VNull => None
  | VObj props => Some (default VUndefined (assoc k props))
  | _ => Some VUndefined
  end.

Definition getIndex (v : value) (i : nat) : option value :=
  match v with
  | VUndefined | VNull => None
  | VArr elems => Some (default VUndefined (elems !! i))
  | VObj props => Some (default VUndefined (assoc (string_of_nat i) props))
  | _ => Some VUndefined
  end.

(** The property names an object literal inherits from
    [Object.prototype]. *)
Definition objectPrototypeKeys : list string :=
  ["constructor"; "hasOwnProperty"; "isPrototypeOf"; "propertyIsEnumerable";
   "toLocaleString"; "toString"; "valueOf"; "__proto__";
   "__defineGetter__"; "__defineSetter__";
   "__lookupGetter__"; "__lookupSetter__"].

Definition inherited (s : string) : bool :=
  existsb (String.eqb s) objectPrototypeKeys.

(** A property name made of digits.  JavaScript enumerates the names
    that are array indices before the others, in numeric order, whatever
    the order in which they were added. *)
Definition isDigit (c : ascii) : bool :=
  let n := nat_of_ascii c in (48 <=? n) && (n <=? 57).

Fixpoint allDigits (s : string) : bool :=
  match s with
  | EmptyString => true
  | String c s' => isDigit c && allDigits s'
  end.

Definition numericKey (k : string) : bool :=
  negb (String.eqb k "") && allDigits k.

(** A name graphql-js accepts for a type: a letter or an underscore, then
    letters, digits and underscores, and not two underscores at the
    start.  Its constructors refuse a type without a name and a name of
    another form. *)
Definition isLetter (c : ascii) : bool :=
  let n := nat_of_ascii c in
  ((65 <=? n) && (n <=? 90)) || ((97 <=? n) && (n <=? 122)) || (n =? 95).

Fixpoint allNameChars (s : string) : bool :=
  match s with
  | EmptyString => true
  | String c s' => (isLetter c || isDigit c) && allNameChars s'
  end.

Definition graphqlName (s : string) : bool :=
  match s with
  | EmptyString => false
  | String c s' =>
      isLetter c && allNameChars s' && negb (String.prefix "__" s)
  end.

(** lodash [capitalize]: first character to upper case, the rest to
    lower case (ASCII letters). *)
Definition toLower (c : ascii) : ascii :=
  let n := nat_of_ascii c in
  if (65 <=? n) && (n <=? 90) then ascii_of_nat (n + 32) else c.

Definition toUpper (c : ascii) : ascii :=
  let n := nat_of_ascii c in
  if (97 <=? n) && (n <=? 122) then ascii_of_nat (n - 32) else c.

Fixpoint toLowerCase (s : string) : string :=
  match s with
  | EmptyString => EmptyString
  | String c s' => String (toLower c) (toLowerCase s')
  end.

Definition upperFirst (s : string) : string :=
  match s with
  | EmptyString => EmptyString
  | String c s' => String (toUpper c) s'
  end.

Definition capitalize (s : option string) : string :=
  upperFirst (toLowerCase (default "" s)).

(** [Array.prototype.join]. *)
Fixpoint join (sep : string) (l : list string) : string :=
  match l with
  | [] => ""
  | [x] => x
  | x :: l' => x +:+ sep +:+ join sep l'
  end.

(** lodash [assign(target, ...sources)] on objects kept as association
    lists in enumeration order: an existing key keeps its position and
    takes the new value, a new key is appended. *)
Fixpoint assignKey {A} (target : list (string * A)) (k : string) (a : A)
  : list (string * A) :=
  match target with
  | [] => [(k, a)]
  | (k', a') :: t =>
      if String.eqb k' k then (k', a) :: t else (k', a') :: assignKey t k a
  end.

Definition assignFrom {A} (target source : list (string * A))
  : list (string * A) :=
  fold_left (fun acc kv => assignKey acc (fst kv) (snd kv)) source target.

Definition assign {A} (objects : list (list (string * A)))
  : list (string * A) :=
  match objects with
  | [] => []
  | target :: sources => fold_left assignFrom sources target
  end.

(** lodash [flatten] removes one level of array nesting; the elements it
    is applied to are objects, which it leaves in place. *)
Definition flatten {A} (l : list A) : list A := l.

(** lodash [omitBy(_, isNull)] after [mapValues]: the callback's [null]
    is [None]. *)
Fixpoint omitNull {A} (l : list (string * option A)) : list (string * A) :=
  match l with
  | [] => []
  | (k, Some a) :: l' => (k, a) :: omitNull l'
  | (_, None) :: l' => omitNull l'
  end.

(** ** Computations: state passing with exceptions *)

Inductive res (S A : Type) :=
  | Ok (a : A) (s : S)
  | Throw (e : exn) (s : S).
Arguments Ok {S A}.
Arguments Throw {S A}.

Definition M (S A : Type) : Type := S -> res S A.

Definition ret {S A} (a : A) : M S A := fun s => Ok a s.

Definition bind {S A B} (m : M S A) (f : A -> M S B) : M S B :=
  fun s => match m s with
           | Ok a s' => f a s'
           | Throw e s' => Throw e s'
           end.

Definition throw {S A} (e : exn) : M S A := fun s => Throw e s.

Declare Scope js_scope.
Delimit Scope js_scope with js.
Notation "x <- m ;; k" := (bind m (fun x => k))
  (at level 100, m at next level, right associativity) : js_scope.
Notation "m ;;; k" := (bind m (fun _ => k))
  (at level 100, right associativity) : js_scope.
Open Scope js_scope.

(** [mapValues] with an effectful callback, in enumeration order. *)
Definition mapValuesM {S A B} (f : A -> M S B)
  : list (string * A) -> M S (list (string * B)) :=
  fix go l :=
    match l with
    | [] => ret []
    | (k, a) :: l' => b <- f a ;; bs <- go l' ;; ret ((k, b) :: bs)
    end.

(** [Array.prototype.map] with an effectful callback. *)
Definition mapM {S A B} (f : A -> M S B) : list A -> M S (list B) :=
  fix go l :=
    match l with
    | [] => ret []
    | a :: l' => b <- f a ;; bs <- go l' ;; ret (b :: bs)
    end.

Section Joiql.

(** What a user resolver may observe and change. *)
Context {World : Type}.

(** ** Descriptions *)

Definition resolver : Type :=
  value -> value -> value -> value -> M World value.

Record flagsT := Flags { presence_ : option string }.

Record rule := Rule { rname : string; rarg : value }.

(** One [.meta({...})] annotation. *)
Record metaAnn (D : Type) := MetaAnn {
  name : option string;
  args : option (list (string * D));
  resolve : option resolver;
  isTypeOf : option (value -> value)
}.
Arguments MetaAnn {D}.
Arguments name {D}.
Arguments args {D}.
Arguments resolve {D}.
Arguments isTypeOf {D}.

Inductive JoiDesc := Desc {
  type : string;
  flags : option flagsT;
  meta : list (metaAnn JoiDesc);
  rules : list rule;
  children : list (string * JoiDesc);
  items : list JoiDesc;
  alternatives : list JoiDesc;
  description : option string
}.

(** ** The type graph *)

Inductive tyref :=
  | GraphQLBoolean
  | GraphQLString
  | GraphQLInt
  | GraphQLFloat
  | Ref (loc : nat).

(** A field configuration.  [resolve: validatedResolve(desc)] is a
    closure over [desc]; it is kept as the captured description. *)
Inductive fieldConfig :=
  | InputField (ftype : tyref)
  | Field (ftype : tyref) (fargs : option (list (string * tyref)))
          (fdescription : string) (fresolve : JoiDesc).

(** The [resolveType] closure of a union captures [items] and [types]. *)
Inductive node :=
  | GraphQLInputObjectType (tname : string) (tdescription : option string)
                           (fields : list (string * fieldConfig))
  | GraphQLObjectType (tname : string) (tdescription : option string)
                      (fields : list (string * fieldConfig))
  | GraphQLList (ofType : tyref)
  | GraphQLNonNull (ofType : tyref)
  | GraphQLUnionType (tname : string) (tdescription : option string)
                     (types : list tyref) (candidates : list JoiDesc).

Record GraphQLSchema := Schema {
  query : option tyref;
  mutation : option tyref
}.

Record state := State {
  idCounter : nat;
  cachedTypes : gmap string tyref;
  heap : list node
}.

(** lodash [uniqueId()]: [++idCounter] as a string. *)
Definition uniqueId : M state string :=
  fun st =>
    let id := S (idCounter st) in
    Ok (string_of_nat id) (State id (cachedTypes st) (heap st)).

(** [new C(...)]: a fresh object, distinct from every earlier one.  The
    checks the constructors of graphql-js make on what they are given
    ([graphqlName] above, [isNonNull] below) are not made here. *)
Definition new (n : node) : M state tyref :=
  fun st =>
    Ok (Ref (length (heap st)))
       (State (idCounter st) (cachedTypes st) (heap st ++ [n])).

Definition getCached (typeName : string) : M state (option tyref) :=
  fun st => Ok (cachedTypes st !! typeName) st.

Definition setCached (typeName : string) (t : tyref) : M state unit :=
  fun st =>
    Ok tt (State (idCounter st) (<[typeName := t]> (cachedTypes st)) (heap st)).

(** [if (!cachedTypes[typeName]) cachedTypes[typeName] = type] *)
Definition cacheIfAbsent (typeName : string) (t : tyref) : M state unit :=
  c <- getCached typeName ;;
  match c with
  | Some _ => ret tt
  | None => setCached typeName t
  end.

(** ** src/index.js *)

Definition presence (desc : JoiDesc) (name : string) : bool :=
  match flags desc with
  | Some f =>
      match presence_ f with
      | Some p => String.eqb p name
      | None => false
      end
  | None => false
  end.

(** [map(desc.meta, key)[0]]: the property of the first annotation. *)
Definition firstMeta {A} (key : metaAnn JoiDesc -> option A) (desc : JoiDesc)
  : option A :=
  match meta desc with
  | [] => None
  | m :: _ => key m
  end.

(** [x || 'Anon' + uniqueId()] for a name [x]: the empty string is falsy. *)
Definition orAnon (x : option string) : M state string :=
  match x with
  | Some n =>
      if String.eqb n "" then id <- uniqueId ;; ret ("Anon" +:+ id) else ret n
  | None => id <- uniqueId ;; ret ("Anon" +:+ id)
  end.

Definition inputPrefix (isInput : bool) : string :=
  if isInput then "Input" else "".

(** Lines 47-50. *)
Definition typeNameOf (desc : JoiDesc) (isInput : bool) : M state string :=
  n <- orAnon (firstMeta name desc) ;;
  ret (inputPrefix isInput +:+ n).

Inductive kind :=
  | Kboolean | Kdate | Kstring | Knumber | Kobject | Karray | Kalternatives.

(** The own keys of the dispatch table of [descToType]. *)
Definition handlerOf (ty : string) : option kind :=
  if String.eqb ty "boolean" then Some Kboolean
  else if String.eqb ty "date" then Some Kdate
  else if String.eqb ty "string" then Some Kstring
  else if String.eqb ty "number" then Some Knumber
  else if String.eqb ty "object" then Some Kobject
  else if String.eqb ty "array" then Some Karray
  else if String.eqb ty "alternatives" then Some Kalternatives
  else None.

(** [d.meta.name] in the array handler reads the property [name] of the
    annotation array itself, which arrays do not have. *)
Definition metaArrayName (m : list (metaAnn JoiDesc)) : option string := None.

(** Lines 88-95, the callback and the [join]. *)
Definition itemName (isInput : bool) (d : JoiDesc) : M state string :=
  let fromMeta :=
    match meta d with
    | [] => ""
    | _ :: _ => capitalize (metaArrayName (meta d))
    end in
  n <- (if negb (String.eqb fromMeta "") then ret fromMeta
        else orAnon (Some (capitalize (Some (type d))))) ;;
  ret (inputPrefix isInput +:+ n).

Definition compositeName (isInput : bool) (its : list JoiDesc)
  : M state string :=
  names <- mapM (itemName isInput) its ;;
  ret (join "Or" names).

Definition notForbidden (d : JoiDesc) : bool := negb (presence d "forbidden").

(** The bodies of the mutually recursive functions; [self] stands for the
    references to [descToType]. *)
Section Bodies.

Variable self : JoiDesc -> bool -> M state tyref.

(** Lines 145-153. *)
Definition descToArgsF (desc : JoiDesc)
  : M state (option (list (string * tyref))) :=
  match firstMeta args desc with
  | None => ret None
  | Some argsSchema =>
      fs <- mapValuesM (fun schema =>
              if presence schema "forbidden" then ret None
              else t <- self schema true ;; ret (Some t)) argsSchema ;;
      ret (Some (omitNull fs))
  end.

(** Lines 170-179.  The unused [resolveMiddlewares] parameter is left
    out; [descToType(desc)] passes no [isInput], which is falsy. *)
Definition fieldOfF (desc : JoiDesc) : M state (option fieldConfig) :=
  if presence desc "forbidden" then ret None
  else
    t <- self desc false ;;
    a <- descToArgsF desc ;;
    ret (Some (Field t a (default "" (description desc)) desc)).

Definition descsToFieldsF (descs : list (string * JoiDesc))
  : M state (list (string * fieldConfig)) :=
  fs <- mapValuesM fieldOfF descs ;;
  ret (omitNull fs).

(** Lines 113-141.  The [cachedTypes] argument is the module's cache. *)
Definition makeArrayAlternativeTypeF (isInput : bool) (typeName : string)
    (desc : JoiDesc) (its : list JoiDesc) : M state tyref :=
  types <- mapM (fun item => self item isInput) its ;;
  c <- getCached typeName ;;
  match c with
  | Some t => ret t
  | None =>
      if isInput then
        let children_ := map children its in
        fields <- descsToFieldsF (assign (flatten children_)) ;;
        new (GraphQLInputObjectType typeName (description desc) fields)
      else
        new (GraphQLUnionType typeName (description desc) types its)
  end.

(** Lines 67-70: the fields of an input object. *)
Definition inputFieldsF (chs : list (string * JoiDesc))
  : M state (list (string * fieldConfig)) :=
  fs <- mapValuesM (fun child =>
          if presence child "forbidden" then ret None
          else t <- self child true ;; ret (Some (InputField t))) chs ;;
  ret (omitNull fs).

(** Lines 52-108: the table of handlers, one per kind.  In the array
    handler [desc.items.filter] throws when the description has no
    [items], for which the empty list stands. *)
Definition handlersF (desc : JoiDesc) (isInput : bool) (typeName : string)
    (k : kind) : M state tyref :=
  match k with
  | Kboolean => ret GraphQLBoolean
  | Kdate => ret GraphQLString
  | Kstring => ret GraphQLString
  | Knumber =>
      let isInteger :=
        existsb (fun r => String.eqb (rname r) "integer") (rules desc) in
      ret (if isInteger then GraphQLInt else GraphQLFloat)
  | Kobject =>
      c <- getCached typeName ;;
      match c with
      | Some t => ret t
      | None =>
          t <- (if isInput then
                  fs <- inputFieldsF (children desc) ;;
                  new (GraphQLInputObjectType typeName (description desc) fs)
                else
                  fs <- descsToFieldsF (children desc) ;;
                  new (GraphQLObjectType typeName (description desc) fs)) ;;
          setCached typeName t ;;;
          ret t
      end
  | Karray =>
      let finish typeName t :=
        cacheIfAbsent typeName t ;;; new (GraphQLList t) in
      match items desc with
      | [] => throw (TypeError "cannot read property of undefined")
      | _ :: _ =>
          let its := List.filter notForbidden (items desc) in
          match its with
          | [item] => t <- self item isInput ;; finish typeName t
          | _ =>
              typeName' <- compositeName isInput its ;;
              t <- makeArrayAlternativeTypeF isInput typeName' desc its ;;
              finish typeName' t
          end
      end
  | Kalternatives =>
      let alts := List.filter notForbidden (alternatives desc) in
      t <- makeArrayAlternativeTypeF isInput typeName desc alts ;;
      cacheIfAbsent typeName t ;;;
      ret t
  end.

(** Line 109: [{...}[desc.type]()]; calling a missing entry is a
    TypeError. *)
Definition dispatchF (desc : JoiDesc) (isInput : bool) (typeName : string)
  : M state tyref :=
  match handlerOf (type desc) with
  | Some k => handlersF desc isInput typeName k
  | None => throw (TypeError "is not a function")
  end.

(** Lines 51 and 110. *)
Definition wrapRequired (desc : JoiDesc) (isInput : bool) (ty : tyref)
  : M state tyref :=
  let required := isInput && presence desc "required" in
  if required then new (GraphQLNonNull ty) else ret ty.

(** Lines 46-111. *)
Definition descToTypeF (desc : JoiDesc) (isInput : bool) : M state tyref :=
  typeName <- typeNameOf desc isInput ;;
  ty <- dispatchF desc isInput typeName ;;
  wrapRequired desc isInput ty.

End Bodies.

(** The recursion of [descToType] follows the description tree: every
    recursive call is on a child, an item, an alternative or an argument
    schema of the node at hand.  [height] bounds its depth. *)
Definition maxOver {A} (f : A -> nat) (l : list A) : nat :=
  foldr (fun a acc => Nat.max (f a) acc) 0 l.

Fixpoint height (d : JoiDesc) : nat :=
  S (Nat.max
       (maxOver (fun m => match args m with
                          | Some l => maxOver (fun kc => height (snd kc)) l
                          | None => 0
                          end) (meta d))
       (Nat.max (maxOver (fun kc => height (snd kc)) (children d))
          (Nat.max (maxOver height (items d))
                   (maxOver height (alternatives d))))).

(** [descToTypeN n] unfolds the recursion [n] times.  [height desc]
    unfoldings reach every node below [desc], so that [descToType]
    satisfies the recursive equation of the source ([descToType_unfold]
    below) and the base case is never run. *)
Fixpoint descToTypeN (n : nat) : JoiDesc -> bool -> M state tyref :=
  match n with
  | O => fun _ _ => throw (TypeError "unreachable")
  | S n' => descToTypeF (descToTypeN n')
  end.

Definition descToType (desc : JoiDesc) (isInput : bool) : M state tyref :=
  descToTypeN (height desc) desc isInput.

Definition descToArgs := descToArgsF descToType.
Definition descsToFields := descsToFieldsF descToType.
Definition makeArrayAlternativeType := makeArrayAlternativeTypeF descToType.
Definition inputFields := inputFieldsF descToType.
Definition handlers := handlersF descToType.
Definition dispatch := dispatchF descToType.

(** The type a node translates to before line 110 decides on the
    non-null wrapper. *)
Definition typeBeforeWrap (desc : JoiDesc) (isInput : bool) : M state tyref :=
  typeName <- typeNameOf desc isInput ;;
  dispatch desc isInput typeName.

(** The [resolveType] closure of lines 131-138, applied to [val]. *)
Definition matchesCandidate (item : JoiDesc) (val : value) : bool :=
  match firstMeta isTypeOf item with
  | Some isTypeOf_ => truthy (isTypeOf_ val)
  | None => isEqual (keys val) (map fst (children item))
  end.

Fixpoint resolveTypeFrom (i : nat) (its : list JoiDesc) (types : list tyref)
    (val : value) : option tyref :=
  match its with
  | [] => None
  | item :: its' =>
      match (if matchesCandidate item val then types !! i else None) with
      | Some t => Some t
      | None => resolveTypeFrom (S i) its' types val
      end
  end.

Definition resolveType (its : list JoiDesc) (types : list tyref)
    (val : value) : option tyref :=
  resolveTypeFrom 0 its types val.

(** Joi's validation, an external collaborator: [{ value, error }]. *)
Record validation := Validation {
  vvalue : value;
  verror : option exn
}.

Variable Joi_validate :
  value -> option (list (string * JoiDesc)) -> validation.

(** Lines 156-166. *)
Definition validatedResolve (desc : JoiDesc)
    (source args_ root opts : value) : M World value :=
  let resolve_ := firstMeta resolve desc in
  if truthy args_ && negb (isEmpty args_) then
    let argsSchema := firstMeta args desc in
    let r := Joi_validate args_ argsSchema in
    match verror r with
    | Some error => throw error
    | None =>
        match resolve_ with
        | Some f => f source (vvalue r) root opts
        | None => throw (TypeError "resolve is not a function")
        end
    end
  else
    match resolve_ with
    | Some f => f source args_ root opts
    | None =>
        if truthy source then
          match
            fieldASTs ← getProp opts "fieldASTs";
            ast ← getIndex fieldASTs 0;
            nm ← getProp ast "name";
            fieldName ← getProp nm "value";
            match fieldName with
            | VStr s => getProp source s
            | _ => Some VUndefined
            end
          with
          | Some v => ret v
          | None => throw (TypeError "cannot read property of undefined")
          end
        else ret source
    end.

(** Lines 182-197, with every schema given by its description. *)
Record jois := Jois {
  jquery : option (list (string * JoiDesc));
  jmutation : option (list (string * JoiDesc))
}.

(** Lines 184-189 and 190-195: the root type made when the descriptions
    are given. *)
Definition rootType (rootName : string)
    (given : option (list (string * JoiDesc))) : M state (option tyref) :=
  match given with
  | Some descs =>
      fs <- descsToFields descs ;;
      t <- new (GraphQLObjectType rootName None fs) ;;
      ret (Some t)
  | None => ret None
  end.

(** Lines 183-195: [attrs]. *)
Definition schemaAttrs (j : jois) : M state GraphQLSchema :=
  q <- rootType "RootQueryType" (jquery j) ;;
  m <- rootType "RootMutationType" (jmutation j) ;;
  ret (Schema q m).

(** Line 196.  [new GraphQLSchema(attrs)] throws when [attrs] has no
    query type; the schema it returns is given by its attributes. *)
Definition joiql (j : jois) : M state GraphQLSchema :=
  attrs <- schemaAttrs j ;;
  match query attrs with
  | Some _ => ret attrs
  | None => throw (LibraryError "Schema query must be Object Type")
  end.

End Joiql.

Arguments resolver World : clear implicits.
Arguments metaAnn World D : clear implicits.
Arguments JoiDesc World : clear implicits.
Arguments fieldConfig World : clear implicits.
Arguments node World : clear implicits.
Arguments state World : clear implicits.
Arguments jois World : clear implicits.
Arguments MetaAnn {World D}.
Arguments name {World D}.
Arguments args {World D}.
Arguments resolve {World D}.
Arguments isTypeOf {World D}.

(** * Vocabulary of the properties *)

Section Vocabulary.

Context {World : Type}.

Implicit Types (d : JoiDesc World) (st : state World).

(** A later state of the build: the counter has not gone back, the
    objects created so far are still there, unchanged, and every cached
    name still has its node. *)
Definition extends st st' : Prop :=
  idCounter st <= idCounter st' /\
  heap st `prefix_of` heap st' /\
  cachedTypes st ⊆ cachedTypes st'.

(** An outcome reached from [st0]: its state is a later state, and the
    error, if any, is the TypeError of a call or property read. *)
Definition framed {A} st0 (o : res (state World) A) : Prop :=
  match o with
  | Ok _ st' => extends st0 st'
  | Throw e st' => extends st0 st' /\ isGenericInvocationError e = true
  end.

Definition frames {A} (m : M (state World) A) : Prop :=
  forall st, framed st (m st).

(** A description without its forbidden items and branches. *)
Definition withoutForbidden d : JoiDesc World :=
  Desc (type d) (flags d) (meta d) (rules d) (children d)
       (List.filter notForbidden (items d))
       (List.filter notForbidden (alternatives d)) (description d).

(** The names of the items of an array as the specification words them,
    for items without name metadata: the capitalized kind, or an
    anonymous counter name when the kind is empty, after the position
    prefix.  The counter is threaded from left to right. *)
Fixpoint itemNamesFrom (isInput : bool) (counter : nat)
    (its : list (JoiDesc World)) : list string * nat :=
  match its with
  | [] => ([], counter)
  | d :: its' =>
      let kindName := capitalize (Some (type d)) in
      let nc :=
        if String.eqb kindName ""
        then ("Anon" +:+ string_of_nat (S counter), S counter)
        else (kindName, counter) in
      let rest := itemNamesFrom isInput (snd nc) its' in
      ((inputPrefix isInput +:+ fst nc) :: fst rest, snd rest)
  end.

(** A description whose first annotation gives no usable name: lines
    47-50 then draw the name from the counter. *)
Definition unnamed d : bool :=
  match firstMeta name d with
  | Some n => String.eqb n ""
  | None => true
  end.

(** An item without name metadata, and the name lines 88-94 give it:
    its capitalized kind after the position prefix, or an anonymous
    counter name when the kind is empty. *)
Definition withoutName d : Prop :=
  forall m, In m (meta d) -> name m = None.

Definition namedByKind (isInput : bool) d (nm : string) : Prop :=
  if String.eqb (capitalize (Some (type d))) ""
  then exists id, nm = inputPrefix isInput +:+ "Anon" +:+ string_of_nat id
  else nm = inputPrefix isInput +:+ capitalize (Some (type d)).

(** The field configuration line 173-178 build for [desc], given its
    type and arguments. *)
Definition fieldFor desc (t : tyref) (a : option (list (string * tyref)))
  : fieldConfig World :=
  Field t a (default "" (description desc)) desc.

(** The [executionInfo] of a field named [f]: [opts.fieldASTs[0].name.value]
    is [f]. *)
Definition infoFor (f : string) : value :=
  VObj [("fieldASTs", VArr [VObj [("name", VObj [("value", VStr f)])]])].

End Vocabulary.

(** The value and the final state of an outcome. *)
Definition resultOf {S A} (o : res S A) : option A :=
  match o with Ok a _ => Some a | Throw _ _ => None end.

Definition stateOf {S A} (o : res S A) : S :=
  match o with Ok _ s | Throw _ s => s end.

(** The node a reference denotes, and its name. *)
Definition nodeAt {World} (st : state World) (r : tyref)
  : option (node World) :=
  match r with
  | Ref loc => heap st !! loc
  | _ => None
  end.

Definition typeNameAt {World} (st : state World) (r : tyref) : option string :=
  match nodeAt st r with
  | Some (GraphQLInputObjectType n _ _) | Some (GraphQLObjectType n _ _)
  | Some (GraphQLUnionType n _ _ _) => Some n
  | _ => None
  end.

(** A reference to a non-null type.  graphql-js refuses to put one
    inside another [GraphQLNonNull]. *)
Definition isNonNull {World} (st : state World) (r : tyref) : bool :=
  match nodeAt st r with
  | Some (GraphQLNonNull _) => true
  | _ => false
  end.

(** Calling the [resolveType] of the union a reference denotes. *)
Definition resolveTypeAt {World} (st : state World) (r : tyref) (val : value)
  : option tyref :=
  match nodeAt st r with
  | Some (GraphQLUnionType _ _ types its) => resolveType its types val
  | _ => None
  end.

(** * Concrete descriptions

    The descriptions of a few Joi schemas, as [describe()] returns them.
    The user's world is the number of resolver calls made so far. *)

(** A fresh process: counter at zero, nothing cached, nothing created. *)
Definition st0 : state nat := State 0 ∅ [].

Definition scalar (ty : string) : JoiDesc nat :=
  Desc ty None [] [] [] [] [] None.

Definition object (chs : list (string * JoiDesc nat)) : JoiDesc nat :=
  Desc "object" None [] [] chs [] [] None.

Definition array (its : list (JoiDesc nat)) : JoiDesc nat :=
  Desc "array" None [] [] [] its [] None.

Definition alternativesOf (alts : list (JoiDesc nat)) : JoiDesc nat :=
  Desc "alternatives" None [] [] [] [] alts None.

(** [schema.required()], [schema.forbidden()], [schema.meta(m)]. *)
Definition withPresence (p : string) (d : JoiDesc nat) : JoiDesc nat :=
  Desc (type d) (Some (Flags (Some p))) (meta d) (rules d) (children d)
       (items d) (alternatives d) (description d).

Definition withMeta (m : metaAnn nat (JoiDesc nat)) (d : JoiDesc nat)
  : JoiDesc nat :=
  Desc (type d) (flags d) (meta d ++ [m]) (rules d) (children d)
       (items d) (alternatives d) (description d).

Definition named (n : string) : JoiDesc nat -> JoiDesc nat :=
  withMeta (MetaAnn (Some n) None None None).

Definition required_ := withPresence "required".
Definition forbidden_ := withPresence "forbidden".

Definition film : JoiDesc nat :=
  named "Film" (object [("title", scalar "string")]).

Definition person : JoiDesc nat :=
  named "Person" (object [("name", scalar "string")]).

(** Another description under the name of [film]. *)
Definition filmWithYear : JoiDesc nat :=
  named "Film" (object [("title", scalar "string"); ("year", scalar "number")]).

Definition stFilm : state nat := stateOf (descToType film false st0).

(** A resolver that counts its calls and returns its arguments. *)
Definition echoArgs : resolver nat :=
  fun source args_ root opts calls => Ok args_ (S calls).

Definition hello : JoiDesc nat :=
  withMeta (MetaAnn None (Some [("id", scalar "number")]) (Some echoArgs) None)
           (scalar "string").

(** A validation that accepts a single numeric property and coerces the
    string "1". *)
Definition validateId (v : value)
    (schema : option (list (string * JoiDesc nat))) : validation :=
  match v with
  | VObj [(k, VNum z)] => Validation v None
  | VObj [(k, VStr s)] =>
      if String.eqb s "1" then Validation (VObj [(k, VNum 1)]) None
      else Validation v (Some (ValidationError "must be a number"))
  | _ => Validation v (Some (ValidationError "must be a number"))
  end.

Definition alwaysOfType : value -> value := fun _ => VBool true.

(** A candidate recognised by its keys, and one recognised by a
    predicate that accepts every value. *)
Definition byKeys : JoiDesc nat :=
  named "ByKeys" (object [("a", scalar "number"); ("b", scalar "number")]).

Definition byPredicate : JoiDesc nat :=
  withMeta (MetaAnn (Some "ByPredicate") None None (Some alwaysOfType))
           (object [("c", scalar "number")]).

(** The predicate sits in the second annotation:
    [.meta({ name }).meta({ isTypeOf })]. *)
Definition predicateSecond : JoiDesc nat :=
  withMeta (MetaAnn None None None (Some alwaysOfType))
           (named "PredicateSecond" (object [("c", scalar "number")])).

Definition unionOf (alts : list (JoiDesc nat)) : res (state nat) tyref :=
  descToType (alternativesOf alts) false st0.

(** [Joi.array().items(Joi.string()).required()] as an argument. *)
Definition requiredStrings : JoiDesc nat :=
  required_ (array [scalar "string"]).

Definition tags : JoiDesc nat := named "Tags" (array [scalar "string"]).

(** An object description that computes the name of [tags]. *)
Definition tagsObject : JoiDesc nat :=
  named "Tags" (object [("label", scalar "string")]).

Definition requiredFilm : JoiDesc nat := required_ film.

(** An object with a child object of the same name. *)
Definition nestedNode : JoiDesc nat :=
  named "Node"
    (object [("inner", named "Node" (object [("a", scalar "string")]))]).

Definition account : list (string * JoiDesc nat) :=
  [("login", scalar "string");
   ("password", forbidden_ (scalar "string"));
   ("active", scalar "boolean")].

Definition search : JoiDesc nat :=
  withMeta (MetaAnn None (Some [("term", scalar "string");
                                ("debug", forbidden_ (scalar "boolean"))])
                    None None)
           (scalar "string").

Definition filmOrPerson : list (JoiDesc nat) :=
  [film; forbidden_ (scalar "number"); person].

Definition stringOrNumber : list (JoiDesc nat) :=
  [scalar "string"; scalar "number"].

Definition left_ : JoiDesc nat :=
  object [("a", scalar "string"); ("b", scalar "number")].

Definition right_ : JoiDesc nat :=
  object [("b", scalar "boolean"); ("c", scalar "string")].

Definition stCandidates : state nat :=
  stateOf (mapM (fun item => descToType item true) [left_; right_] st0).

Definition mergedFields : list (string * fieldConfig nat) :=
  [("a", Field GraphQLString None "" (scalar "string"));
   ("b", Field GraphQLBoolean None "" (scalar "boolean"));
   ("c", Field GraphQLString None "" (scalar "string"))].

(** [Joi.number().integer()]. *)
Definition integer : JoiDesc nat :=
  Desc "number" None [] [Rule "integer" VUndefined] [] [] [] None.

(** An object description whose name is the computed name of [film] in
    input position. *)
Definition inputFilm : JoiDesc nat :=
  named "InputFilm" (object [("id", scalar "number")]).

Definition stInputFilm : state nat := stateOf (descToType film true st0).

(** A query and a mutation. *)
Definition accountApi : jois nat :=
  Jois (Some account) (Some [("hello", hello)]).

(** A hash whose only entry of an unsupported kind is forbidden. *)
Definition withForbiddenBlob : list (string * JoiDesc nat) :=
  [("blob", forbidden_ (scalar "any")); ("login", scalar "string")].

Definition alien : value := VObj [("title", VStr "Alien")].

(** An array of required strings under a name, and a required object
    under the same name. *)
Definition requiredTags : JoiDesc nat :=
  named "Tags" (array [required_ (scalar "string")]).

Definition requiredTagsObject : JoiDesc nat := required_ tagsObject.

(** A scalar and an array under the name of [tags], and an object of
    that name around [tags]. *)
Definition tagsNumber : JoiDesc nat := named "Tags" (scalar "number").

Definition tagsNumbers : JoiDesc nat := named "Tags" (array [scalar "number"]).

Definition tagsInTags : JoiDesc nat := named "Tags" (object [("tags", tags)]).

(** Two candidates, the first with an array of two objects inside. *)
Definition candC : JoiDesc nat := object [("c", scalar "string")].
Definition candD : JoiDesc nat := object [("d", scalar "string")].
Definition candA : JoiDesc nat := object [("x", array [candC; candD])].
Definition candB : JoiDesc nat := object [("y", scalar "string")].

(** [hello] without its resolve function. *)
Definition helloUnresolved : JoiDesc nat :=
  withMeta (MetaAnn None (Some [("id", scalar "number")]) None None)
           (scalar "string").

(** * Properties *)

Section Properties.

Context {World : Type}.

Implicit Types (d desc item : JoiDesc World) (st : state World).
Implicit Types (self : JoiDesc World -> bool -> M (state World) tyref).

Local Abbreviation frames := (@frames World _) (only parsing).

(** ** Running computations *)

Lemma bind_ext {S A B} (m1 m2 : M S A) (f1 f2 : A -> M S B) s :
  m1 s = m2 s -> (forall a s', f1 a s' = f2 a s') ->
  bind m1 f1 s = bind m2 f2 s.
Proof.
  intros Hm Hf. unfold bind. rewrite Hm.
  destruct (m2 s); [apply Hf | reflexivity].
Qed.

Lemma bind_Ok {S A B} (m : M S A) (f : A -> M S B) s a s' :
  m s = Ok a s' -> bind m f s = f a s'.
Proof. intros H. unfold bind. now rewrite H. Qed.

Lemma bind_inv_Ok {S A B} (m : M S A) (f : A -> M S B) s b s' :
  bind m f s = Ok b s' -> exists a s1, m s = Ok a s1 /\ f a s1 = Ok b s'.
Proof.
  unfold bind. destruct (m s) as [a s1 | e s1]; [eauto | discriminate].
Qed.

Lemma mapM_ext {S A B} (f g : A -> M S B) (l : list A) :
  (forall a, In a l -> forall s, f a s = g a s) ->
  forall s, mapM f l s = mapM g l s.
Proof.
  induction l as [| a l IH]; intros H s; [reflexivity |].
  cbn [mapM]. apply bind_ext; [apply H; now left |].
  intros b s'. apply bind_ext; [| reflexivity].
  apply IH. intros a' Ha'. apply H. now right.
Qed.

Lemma mapValuesM_ext {S A B} (f g : A -> M S B) (l : list (string * A)) :
  (forall kv, In kv l -> forall s, f (snd kv) s = g (snd kv) s) ->
  forall s, mapValuesM f l s = mapValuesM g l s.
Proof.
  induction l as [| [k a] l IH]; intros H s; [reflexivity |].
  cbn [mapValuesM]. apply bind_ext; [apply (H (k, a)); now left |].
  intros b s'. apply bind_ext; [| reflexivity].
  apply IH. intros kv Hkv. apply H. now right.
Qed.

(** ** The description tree bounds the recursion *)

Lemma maxOver_In {A} (f : A -> nat) (l : list A) (a : A) :
  In a l -> f a <= maxOver f l.
Proof.
  induction l as [| b l IH]; cbn [maxOver foldr]; [intros [] |].
  intros [-> | H]; [lia |]. specialize (IH H). unfold maxOver in IH. lia.
Qed.

Lemma height_pos d : exists h, height d = S h.
Proof. destruct d. cbn [height]. eauto. Qed.

Lemma height_child d kc : In kc (children d) -> height (snd kc) < height d.
Proof.
  destruct d as [ty fl me ru ch it al de]. cbn [children height]. intros H.
  pose proof (maxOver_In (fun kc => height (snd kc)) ch kc H) as Hle.
  cbn beta in Hle. lia.
Qed.

Lemma height_item d item : In item (items d) -> height item < height d.
Proof.
  destruct d as [ty fl me ru ch it al de]. cbn [items height]. intros H.
  pose proof (maxOver_In height it item H). lia.
Qed.

Lemma height_alternative d item :
  In item (alternatives d) -> height item < height d.
Proof.
  destruct d as [ty fl me ru ch it al de]. cbn [alternatives height].
  intros H. pose proof (maxOver_In height al item H). lia.
Qed.

Lemma height_arg d argsSchema kc :
  firstMeta args d = Some argsSchema -> In kc argsSchema ->
  height (snd kc) < height d.
Proof.
  destruct d as [ty fl me ru ch it al de]. unfold firstMeta.
  cbn [meta height]. destruct me as [| m me]; [discriminate |].
  intros Hm Hin. cbn [maxOver foldr]. rewrite Hm.
  pose proof (maxOver_In (fun kc => height (snd kc)) argsSchema kc Hin) as Hle.
  cbn beta in Hle. lia.
Qed.

(** Every value of a merged object is a value of one of the merged
    objects. *)
Lemma assignKey_values {A} (t : list (string * A)) k a x :
  In x (map snd (assignKey t k a)) -> In x (map snd t) \/ x = a.
Proof.
  induction t as [| [k' a'] t IH]; cbn [assignKey map snd In].
  - intros [<- | []]. now right.
  - destruct (String.eqb k' k); cbn [map snd In]; intuition.
Qed.

Lemma assignFrom_values {A} (source target : list (string * A)) x :
  In x (map snd (assignFrom target source)) ->
  In x (map snd target) \/ In x (map snd source).
Proof.
  revert target. induction source as [| [k a] source IH]; intros target.
  - cbn. now left.
  - unfold assignFrom. cbn [fold_left fst snd]. intros H.
    apply IH in H. cbn [map snd In]. destruct H as [H | H]; [| now auto].
    apply assignKey_values in H. intuition.
Qed.

Lemma assign_values {A} (objects : list (list (string * A))) x :
  In x (map snd (assign objects)) ->
  exists o, In o objects /\ In x (map snd o).
Proof.
  destruct objects as [| target sources]; [intros [] |].
  cbn [assign]. revert target.
  induction sources as [| s sources IH]; intros target H.
  - exists target. split; [now left | exact H].
  - cbn [fold_left] in H. apply IH in H. destruct H as (o & Ho & Hx).
    destruct Ho as [<- | Ho].
    + apply assignFrom_values in Hx. destruct Hx as [Hx | Hx].
      * exists target. split; [now left | exact Hx].
      * exists s. split; [right; now left | exact Hx].
    + exists o. split; [right; now right | exact Hx].
Qed.

(** ** [descToType] satisfies the recursive equation of the source *)

Section Locality.

Variables self1 self2 : JoiDesc World -> bool -> M (state World) tyref.
Variable H : nat.
Hypothesis Hself :
  forall d i st, height d < H -> self1 d i st = self2 d i st.

Lemma descToArgsF_ext d st :
  height d <= H -> descToArgsF self1 d st = descToArgsF self2 d st.
Proof.
  intros Hd. unfold descToArgsF.
  destruct (firstMeta args d) as [argsSchema |] eqn:Hargs; [| reflexivity].
  apply bind_ext; [| reflexivity].
  apply mapValuesM_ext. intros kv Hin s.
  destruct (presence (snd kv) "forbidden"); [reflexivity |].
  apply bind_ext; [| reflexivity].
  apply Hself. pose proof (height_arg d argsSchema kv Hargs Hin). lia.
Qed.

Lemma fieldOfF_ext d st :
  height d < H -> fieldOfF self1 d st = fieldOfF self2 d st.
Proof.
  intros Hd. unfold fieldOfF.
  destruct (presence d "forbidden"); [reflexivity |].
  apply bind_ext; [now apply Hself |].
  intros t s. apply bind_ext; [| reflexivity].
  apply descToArgsF_ext. lia.
Qed.

Lemma descsToFieldsF_ext (descs : list (string * JoiDesc World)) st :
  (forall kv, In kv descs -> height (snd kv) < H) ->
  descsToFieldsF self1 descs st = descsToFieldsF self2 descs st.
Proof.
  intros Hdescs. unfold descsToFieldsF.
  apply bind_ext; [| reflexivity].
  apply mapValuesM_ext. intros kv Hin s. apply fieldOfF_ext. now apply Hdescs.
Qed.

Lemma inputFieldsF_ext (chs : list (string * JoiDesc World)) st :
  (forall kv, In kv chs -> height (snd kv) < H) ->
  inputFieldsF self1 chs st = inputFieldsF self2 chs st.
Proof.
  intros Hchs. unfold inputFieldsF.
  apply bind_ext; [| reflexivity].
  apply mapValuesM_ext. intros kv Hin s.
  destruct (presence (snd kv) "forbidden"); [reflexivity |].
  apply bind_ext; [| reflexivity]. apply Hself. now apply Hchs.
Qed.

Lemma makeArrayAlternativeTypeF_ext isInput typeName d
    (its : list (JoiDesc World)) st :
  (forall item, In item its -> height item < H) ->
  makeArrayAlternativeTypeF self1 isInput typeName d its st =
  makeArrayAlternativeTypeF self2 isInput typeName d its st.
Proof.
  intros Hits. unfold makeArrayAlternativeTypeF.
  apply bind_ext.
  { apply mapM_ext. intros item Hin s. apply Hself. now apply Hits. }
  intros types s. apply bind_ext; [reflexivity |].
  intros [t |] s'; [reflexivity |].
  destruct isInput; [| reflexivity].
  apply bind_ext; [| reflexivity].
  apply descsToFieldsF_ext. intros [k c] Hin.
  assert (Hv : In c (map snd (assign (flatten (map children its))))).
  { apply in_map_iff. exists (k, c). split; [reflexivity | exact Hin]. }
  apply assign_values in Hv. destruct Hv as (o & Ho & Hc).
  unfold flatten in Ho. apply in_map_iff in Ho. destruct Ho as (item & <- & Hitem).
  apply in_map_iff in Hc. destruct Hc as (kc & <- & Hkc).
  pose proof (height_child item kc Hkc). specialize (Hits item Hitem).
  cbn [snd]. lia.
Qed.

End Locality.

Lemma filter_In_l {A} (p : A -> bool) (l : list A) (a : A) :
  In a (List.filter p l) -> In a l.
Proof. intros Hin. now apply filter_In in Hin. Qed.

Lemma descToTypeF_ext self1 self2 d :
  (forall d' i st, height d' < height d -> self1 d' i st = self2 d' i st) ->
  forall i st, descToTypeF self1 d i st = descToTypeF self2 d i st.
Proof.
  intros Hself i st. unfold descToTypeF.
  apply bind_ext; [reflexivity |]. intros typeName s.
  apply bind_ext; [| reflexivity].
  unfold dispatchF. destruct (handlerOf (type d)) as [k |]; [| reflexivity].
  destruct k; cbn [handlersF]; try reflexivity.
  - (* object *)
    apply bind_ext; [reflexivity |]. intros [t |] s1; [reflexivity |].
    apply bind_ext; [| reflexivity].
    destruct i; (apply bind_ext; [| reflexivity]).
    + apply (inputFieldsF_ext _ _ (height d) Hself).
      intros kv. apply height_child.
    + apply (descsToFieldsF_ext _ _ (height d) Hself).
      intros kv. apply height_child.
  - (* array *)
    assert (Hits : forall item,
               In item (List.filter notForbidden (items d)) ->
               height item < height d).
    { intros item Hin. apply height_item. eapply filter_In_l, Hin. }
    destruct (items d) as [| it0 its0] eqn:Hitems; [done |].
    rewrite <- Hitems in Hits |- *.
    destruct (List.filter notForbidden (items d)) as [| item [| item' its]].
    + apply bind_ext; [reflexivity |]. intros tn s1.
      apply bind_ext; [| reflexivity].
      now apply (makeArrayAlternativeTypeF_ext _ _ (height d) Hself).
    + apply bind_ext; [| reflexivity]. apply Hself, Hits. now left.
    + apply bind_ext; [reflexivity |]. intros tn s1.
      apply bind_ext; [| reflexivity].
      now apply (makeArrayAlternativeTypeF_ext _ _ (height d) Hself).
  - (* alternatives *)
    apply bind_ext; [| reflexivity].
    apply (makeArrayAlternativeTypeF_ext _ _ (height d) Hself).
    intros item Hin. apply height_alternative. eapply filter_In_l, Hin.
Qed.

Lemma descToTypeN_stable n : forall m d i st,
  height d <= n -> height d <= m ->
  descToTypeN n d i st = descToTypeN m d i st.
Proof.
  induction n as [| n IH]; intros m d i st Hn Hm.
  - destruct (height_pos d) as [h Hh]. lia.
  - destruct m as [| m]; [destruct (height_pos d) as [h Hh]; lia |].
    cbn [descToTypeN]. apply descToTypeF_ext.
    intros d' i' st' Hlt. apply IH; lia.
Qed.

(** The equation that defines [descToType] in the source. *)
Lemma descToType_unfold d i st :
  descToType d i st = descToTypeF descToType d i st.
Proof.
  unfold descToType at 1. destruct (height_pos d) as [h Hh]. rewrite Hh.
  cbn [descToTypeN]. apply descToTypeF_ext.
  intros d' i' st' Hlt. unfold descToType. apply descToTypeN_stable; lia.
Qed.

Lemma descToType_eq d i st :
  descToType d i st =
  (ty <- typeBeforeWrap d i ;; wrapRequired d i ty) st.
Proof.
  rewrite descToType_unfold. unfold descToTypeF, typeBeforeWrap, dispatch, bind.
  destruct (typeNameOf d i st); reflexivity.
Qed.

Lemma descToType_output d st :
  descToType d false st = typeBeforeWrap d false st.
Proof.
  rewrite descToType_eq. unfold wrapRequired, bind, ret. cbn [andb].
  destruct (typeBeforeWrap d false st); reflexivity.
Qed.

(** ** What a translation leaves in place

    A translation only adds: the counter grows, objects already created
    stay as they are, and a name that is in the cache when the
    translation starts keeps its node.  Its only failure is the
    TypeError of the kind dispatch. *)

Lemma extends_refl st : extends st st.
Proof. unfold extends. split; [lia | split; reflexivity]. Qed.

Lemma extends_trans st1 st2 st3 :
  extends st1 st2 -> extends st2 st3 -> extends st1 st3.
Proof.
  intros (Hc & Hh & Hm) (Hc' & Hh' & Hm'). unfold extends.
  split; [lia | split; etrans; eassumption].
Qed.

Lemma extends_cached st st' tn t :
  extends st st' -> cachedTypes st !! tn = Some t ->
  cachedTypes st' !! tn = Some t.
Proof.
  intros (_ & _ & Hm) Hl. eapply lookup_weaken; eassumption.
Qed.

Lemma extends_heap st st' l (n : node World) :
  extends st st' -> heap st !! l = Some n -> heap st' !! l = Some n.
Proof.
  intros (_ & Hh & _) Hl. eapply prefix_lookup_Some; eassumption.
Qed.

Lemma framed_weaken {A} st0 st (o : res (state World) A) :
  extends st0 st -> framed st o -> framed st0 o.
Proof.
  intros He. destruct o as [a s | e s]; cbn [framed].
  - now apply extends_trans.
  - intros [He' Hg]. split; [now apply (extends_trans _ st) | exact Hg].
Qed.

Lemma framed_bind {A B} st0 (m : M (state World) A)
    (f : A -> M (state World) B) st :
  framed st0 (m st) ->
  (forall a st1, m st = Ok a st1 -> extends st0 st1 -> framed st0 (f a st1)) ->
  framed st0 (bind m f st).
Proof.
  intros Hm Hf. unfold bind. destruct (m st) as [a st1 | e st1].
  - apply Hf; [reflexivity | exact Hm].
  - exact Hm.
Qed.

Lemma frames_bind {A B} (m : M (state World) A) (f : A -> M (state World) B) :
  frames m -> (forall a, frames (f a)) -> frames (bind m f).
Proof.
  intros Hm Hf st. apply framed_bind; [apply Hm |].
  intros a st1 _ He. eapply framed_weaken; [exact He | apply Hf].
Qed.

Lemma frames_ret {A} (a : A) : frames (ret a).
Proof. intros st. apply extends_refl. Qed.

Lemma frames_throw_TypeError {A} msg :
  frames (throw (TypeError msg) : M (state World) A).
Proof. intros st. split; [apply extends_refl | reflexivity]. Qed.

Lemma frames_uniqueId : frames uniqueId.
Proof.
  intros st. cbn. unfold extends. cbn. split; [lia | split; reflexivity].
Qed.

Lemma frames_new n : frames (new n).
Proof.
  intros st. cbn. unfold extends. cbn.
  split; [lia | split; [now apply prefix_app_r | reflexivity]].
Qed.

Lemma frames_getCached tn : frames (getCached tn).
Proof. intros st. apply extends_refl. Qed.

Lemma setCached_fresh st0 st tn t :
  extends st0 st -> cachedTypes st0 !! tn = None ->
  framed st0 (setCached tn t st).
Proof.
  intros (Hc & Hh & Hm) Hnone. cbn. unfold extends. cbn.
  split; [exact Hc | split; [exact Hh |]].
  apply map_subseteq_spec. intros k x Hk.
  destruct (decide (tn = k)) as [-> | Hne]; [congruence |].
  rewrite lookup_insert_ne by exact Hne.
  eapply lookup_weaken; eassumption.
Qed.

Lemma frames_cacheIfAbsent tn t : frames (cacheIfAbsent tn t).
Proof.
  intros st. unfold cacheIfAbsent, bind, getCached.
  destruct (cachedTypes st !! tn) eqn:Hl; [apply extends_refl |].
  apply setCached_fresh; [apply extends_refl | exact Hl].
Qed.

Lemma frames_mapM {A B} (f : A -> M (state World) B) (l : list A) :
  (forall a, In a l -> frames (f a)) -> frames (mapM f l).
Proof.
  induction l as [| a l IH]; intros Hf; [apply frames_ret |].
  cbn [mapM]. apply frames_bind; [apply Hf; now left |].
  intros b. apply frames_bind; [| intros bs; apply frames_ret].
  apply IH. intros a' Ha'. apply Hf. now right.
Qed.

Lemma frames_mapValuesM {A B} (f : A -> M (state World) B)
    (l : list (string * A)) :
  (forall a, frames (f a)) -> frames (mapValuesM f l).
Proof.
  intros Hf. induction l as [| [k a] l IH]; [apply frames_ret |].
  cbn [mapValuesM]. apply frames_bind; [apply Hf |].
  intros b. apply frames_bind; [exact IH | intros bs; apply frames_ret].
Qed.

Lemma frames_orAnon x : frames (orAnon x).
Proof.
  unfold orAnon.
  destruct x as [n |]; [destruct (String.eqb n "") |];
    try apply frames_ret;
    (apply frames_bind; [apply frames_uniqueId | intros; apply frames_ret]).
Qed.

Lemma frames_typeNameOf d i : frames (typeNameOf d i).
Proof.
  unfold typeNameOf.
  apply frames_bind; [apply frames_orAnon | intros; apply frames_ret].
Qed.

Lemma frames_compositeName i (its : list (JoiDesc World)) :
  frames (compositeName i its).
Proof.
  unfold compositeName.
  apply frames_bind; [| intros; apply frames_ret].
  apply frames_mapM. intros d _. unfold itemName.
  apply frames_bind; [| intros; apply frames_ret].
  match goal with |- frames (if ?b then _ else _) => destruct b end;
    [apply frames_ret | apply frames_orAnon].
Qed.

Section FramesBodies.

Variable self : JoiDesc World -> bool -> M (state World) tyref.
Hypothesis Hself : forall d i, frames (self d i).

Lemma frames_descToArgsF d : frames (descToArgsF self d).
Proof.
  unfold descToArgsF.
  destruct (firstMeta args d); [| apply frames_ret].
  apply frames_bind; [| intros; apply frames_ret].
  apply frames_mapValuesM. intros schema.
  destruct (presence schema "forbidden"); [apply frames_ret |].
  apply frames_bind; [apply Hself | intros; apply frames_ret].
Qed.

Lemma frames_fieldOfF d : frames (fieldOfF self d).
Proof.
  unfold fieldOfF. destruct (presence d "forbidden"); [apply frames_ret |].
  apply frames_bind; [apply Hself |]. intros t.
  apply frames_bind; [apply frames_descToArgsF | intros; apply frames_ret].
Qed.

Lemma frames_descsToFieldsF descs : frames (descsToFieldsF self descs).
Proof.
  unfold descsToFieldsF.
  apply frames_bind; [| intros; apply frames_ret].
  apply frames_mapValuesM, frames_fieldOfF.
Qed.

Lemma frames_inputFieldsF chs : frames (inputFieldsF self chs).
Proof.
  unfold inputFieldsF.
  apply frames_bind; [| intros; apply frames_ret].
  apply frames_mapValuesM. intros child.
  destruct (presence child "forbidden"); [apply frames_ret |].
  apply frames_bind; [apply Hself | intros; apply frames_ret].
Qed.

Lemma frames_makeArrayAlternativeTypeF i tn d its :
  frames (makeArrayAlternativeTypeF self i tn d its).
Proof.
  unfold makeArrayAlternativeTypeF.
  apply frames_bind; [apply frames_mapM; intros; apply Hself |].
  intros types. apply frames_bind; [apply frames_getCached |].
  intros [t |]; [apply frames_ret |].
  destruct i; [| apply frames_new].
  apply frames_bind; [apply frames_descsToFieldsF | intros; apply frames_new].
Qed.

Lemma frames_handlersF d i tn k : frames (handlersF self d i tn k).
Proof.
  destruct k; cbn [handlersF]; try apply frames_ret.
  - (* object: the name stored is absent when the handler starts *)
    intros st. unfold bind at 1. cbn [getCached].
    destruct (cachedTypes st !! tn) as [t |] eqn:Hl; [apply extends_refl |].
    apply framed_bind.
    { destruct i.
      - apply frames_bind; [apply frames_inputFieldsF | intros; apply frames_new].
      - apply frames_bind;
          [apply frames_descsToFieldsF | intros; apply frames_new]. }
    intros t st1 _ He. apply framed_bind; [now apply setCached_fresh |].
    intros [] st2 Hset _. cbn in Hset. injection Hset as <-.
    cbn [ret framed]. pose proof (setCached_fresh st st1 tn t He Hl) as Hf.
    exact Hf.
  - (* array *)
    assert (Hfinish : forall tn' t,
               frames (cacheIfAbsent tn' t;;; new (GraphQLList t))).
    { intros tn' t. apply frames_bind;
        [apply frames_cacheIfAbsent | intros; apply frames_new]. }
    destruct (items d) as [| it0 its0] eqn:Hitems;
      [apply frames_throw_TypeError |].
    rewrite <- Hitems.
    destruct (List.filter notForbidden (items d)) as [| item [| item' its]].
    + apply frames_bind; [apply frames_compositeName |]. intros tn'.
      apply frames_bind; [apply frames_makeArrayAlternativeTypeF |].
      intros t. apply Hfinish.
    + apply frames_bind; [apply Hself | intros t; apply Hfinish].
    + apply frames_bind; [apply frames_compositeName |]. intros tn'.
      apply frames_bind; [apply frames_makeArrayAlternativeTypeF |].
      intros t. apply Hfinish.
  - (* alternatives *)
    apply frames_bind; [apply frames_makeArrayAlternativeTypeF |]. intros t.
    apply frames_bind; [apply frames_cacheIfAbsent | intros; apply frames_ret].
Qed.

Lemma frames_descToTypeF d i : frames (descToTypeF self d i).
Proof.
  unfold descToTypeF. apply frames_bind; [apply frames_typeNameOf |].
  intros tn. apply frames_bind.
  - unfold dispatchF. destruct (handlerOf (type d)).
    + apply frames_handlersF.
    + apply frames_throw_TypeError.
  - intros ty. unfold wrapRequired.
    destruct (i && presence d "required"); [apply frames_new | apply frames_ret].
Qed.

End FramesBodies.

Lemma frames_descToTypeN n : forall d i, frames (descToTypeN n d i).
Proof.
  induction n as [| n IH]; intros d i; cbn [descToTypeN].
  - apply frames_throw_TypeError.
  - now apply frames_descToTypeF.
Qed.

Lemma frames_descToType d i : frames (descToType d i).
Proof. apply frames_descToTypeN. Qed.

Lemma frames_descsToFields descs : frames (descsToFields descs).
Proof. apply frames_descsToFieldsF, frames_descToType. Qed.

Lemma frames_makeArrayAlternativeType i tn d its :
  frames (makeArrayAlternativeType i tn d its).
Proof. apply frames_makeArrayAlternativeTypeF, frames_descToType. Qed.

(** ** Stepping through the handlers *)

(** [typeNameOf] only draws from the counter. *)
Lemma typeNameOf_state d i st tn st1 :
  typeNameOf d i st = Ok tn st1 ->
  cachedTypes st1 = cachedTypes st /\ heap st1 = heap st.
Proof.
  unfold typeNameOf, orAnon, bind, ret, uniqueId.
  destruct (firstMeta name d) as [n |]; [destruct (String.eqb n "") |];
    intros [= <- <-]; split; reflexivity.
Qed.

Lemma typeNameOf_total d i st : exists tn st1, typeNameOf d i st = Ok tn st1.
Proof.
  unfold typeNameOf, orAnon, bind, ret, uniqueId.
  destruct (firstMeta name d) as [n |]; [destruct (String.eqb n "") |];
    eauto.
Qed.

Lemma typeNameOf_named d i st n :
  firstMeta name d = Some n -> n <> "" ->
  typeNameOf d i st = Ok (inputPrefix i +:+ n) st.
Proof.
  intros Hn Hne. unfold typeNameOf, orAnon, bind, ret. rewrite Hn.
  destruct (String.eqb_spec n ""); [contradiction | reflexivity].
Qed.

Lemma typeBeforeWrap_eq d i st tn st1 :
  typeNameOf d i st = Ok tn st1 ->
  typeBeforeWrap d i st = dispatch d i tn st1.
Proof. intros Hn. unfold typeBeforeWrap. now rewrite (bind_Ok _ _ _ _ _ Hn). Qed.

Lemma dispatch_kind d i tn k st :
  handlerOf (type d) = Some k -> dispatch d i tn st = handlers d i tn k st.
Proof. intros Hk. unfold dispatch, dispatchF. now rewrite Hk. Qed.

(** The object handler on a cached name: lines 61. *)
Lemma object_cached d i tn t st :
  cachedTypes st !! tn = Some t ->
  handlers d i tn Kobject st = Ok t st.
Proof.
  intros Hc. unfold handlers. cbn [handlersF]. unfold bind, getCached.
  now rewrite Hc.
Qed.

(** The object handler stores what it returns: lines 79-80. *)
Lemma object_stores d i tn st t st' :
  handlers d i tn Kobject st = Ok t st' ->
  cachedTypes st' !! tn = Some t.
Proof.
  unfold handlers. cbn [handlersF]. unfold bind at 1. cbn [getCached].
  destruct (cachedTypes st !! tn) as [c |] eqn:Hc.
  - intros [= <- <-]. exact Hc.
  - intros Hrun. apply bind_inv_Ok in Hrun. destruct Hrun as (t' & s1 & _ & Hrun).
    cbn in Hrun. injection Hrun as <- <-. cbn. apply lookup_insert_eq.
Qed.

(** The synthesizer, lines 113-141, once the candidates are translated. *)
Lemma makeArrayAlternativeType_translated i tn d its st types st2 :
  mapM (fun item => descToType item i) its st = Ok types st2 ->
  makeArrayAlternativeType i tn d its st =
  match cachedTypes st2 !! tn with
  | Some t => Ok t st2
  | None =>
      if i then
        (fields <- descsToFields (assign (flatten (map children its))) ;;
         new (GraphQLInputObjectType tn (description d) fields)) st2
      else new (GraphQLUnionType tn (description d) types its) st2
  end.
Proof.
  intros Hm. unfold makeArrayAlternativeType, makeArrayAlternativeTypeF.
  rewrite (bind_Ok _ _ _ _ _ Hm). unfold bind at 1. cbn [getCached].
  destruct (cachedTypes st2 !! tn); [reflexivity |].
  destruct i; reflexivity.
Qed.

Lemma mapM_length {S A B} (f : A -> M S B) (l : list A) : forall s bs s',
  mapM f l s = Ok bs s' -> length bs = length l.
Proof.
  induction l as [| a l IH]; intros s bs s'; cbn [mapM].
  - intros [= <- <-]. reflexivity.
  - intros Hrun. apply bind_inv_Ok in Hrun.
    destruct Hrun as (b & s1 & _ & Hrun). apply bind_inv_Ok in Hrun.
    destruct Hrun as (bs' & s2 & Hrec & Hret). injection Hret as <- <-.
    cbn [length]. f_equal. eapply IH, Hrec.
Qed.

(** [cacheIfAbsent] and what the cache holds afterwards. *)
Lemma cacheIfAbsent_run tn t st :
  cacheIfAbsent tn t st =
  Ok tt (State (idCounter st)
           (match cachedTypes st !! tn with
            | Some _ => cachedTypes st
            | None => <[tn := t]> (cachedTypes st)
            end) (heap st)).
Proof.
  unfold cacheIfAbsent, bind, getCached, setCached, ret.
  destruct (cachedTypes st !! tn); [destruct st |]; reflexivity.
Qed.

(** The array handler with one remaining item: lines 85-86, 98-99. *)
Lemma array_single d i tn item st :
  List.filter notForbidden (items d) = [item] ->
  handlers d i tn Karray st =
  (t <- descToType item i ;;
   cacheIfAbsent tn t ;;; new (GraphQLList t)) st.
Proof.
  intros Hits. unfold handlers. cbn [handlersF].
  destruct (items d) as [| it0 its0] eqn:Hitems; [discriminate |].
  now rewrite Hits.
Qed.

(** The array handler otherwise: lines 88-99. *)
Lemma array_composite d i tn st :
  items d <> [] ->
  length (List.filter notForbidden (items d)) <> 1 ->
  handlers d i tn Karray st =
  (let its := List.filter notForbidden (items d) in
   typeName' <- compositeName i its ;;
   t <- makeArrayAlternativeType i typeName' d its ;;
   cacheIfAbsent typeName' t ;;; new (GraphQLList t)) st.
Proof.
  intros Hitems Hlen. unfold handlers. cbn [handlersF].
  destruct (items d) as [| it0 its0] eqn:Hd; [now destruct Hitems |].
  rewrite <- Hd in Hlen |- *.
  destruct (List.filter notForbidden (items d)) as [| item [| item' its]];
    [reflexivity | cbn in Hlen; congruence | reflexivity].
Qed.

(** The array handler without [items]: line 84 throws. *)
Lemma array_absent d i tn st :
  items d = [] ->
  handlers d i tn Karray st =
  Throw (TypeError "cannot read property of undefined") st.
Proof. intros Hitems. unfold handlers. cbn [handlersF]. now rewrite Hitems. Qed.

Lemma filter_several {A} (p : A -> bool) (l : list A) :
  1 < length (List.filter p l) ->
  l <> [] /\ length (List.filter p l) <> 1.
Proof. destruct l; cbn; [lia |]. intros Hlen. split; [discriminate | lia]. Qed.

(** The alternatives handler: lines 101-108. *)
Lemma alternatives_handler d i tn st :
  handlers d i tn Kalternatives st =
  (t <- makeArrayAlternativeType i tn d
          (List.filter notForbidden (alternatives d)) ;;
   cacheIfAbsent tn t ;;; ret t) st.
Proof. reflexivity. Qed.

(** Key sets of the mappings built by [mapValues] and [omitBy]. *)
Lemma mapValuesM_keys {S A B} (f : A -> M S (option B)) (keep : A -> bool)
    (l : list (string * A)) :
  (forall a s b s', f a s = Ok b s' -> is_Some b <-> keep a = true) ->
  forall s bs s', mapValuesM f l s = Ok bs s' ->
  map fst (omitNull bs) = map fst (List.filter (fun kv => keep (snd kv)) l).
Proof.
  intros Hf. induction l as [| [k a] l IH]; intros s bs s'; cbn [mapValuesM].
  - intros [= <- <-]. reflexivity.
  - intros Hrun. apply bind_inv_Ok in Hrun.
    destruct Hrun as (b & s1 & Hb & Hrun). apply bind_inv_Ok in Hrun.
    destruct Hrun as (bs' & s2 & Hrec & Hret). injection Hret as <- <-.
    specialize (IH _ _ _ Hrec). specialize (Hf _ _ _ _ Hb).
    cbn [List.filter snd omitNull]. destruct b as [b |].
    + assert (Hk : keep a = true) by (apply Hf; eauto). rewrite Hk.
      cbn [map fst]. now f_equal.
    + destruct (keep a) eqn:Hk; [| exact IH].
      assert (Hs : @is_Some B None) by now apply Hf.
      destruct Hs as [x Hx]. discriminate.
Qed.

(** ** Presence and the non-null wrapper *)

(** C2.  A description with [required] presence is wrapped in a
    [GraphQLNonNull] exactly when it is translated in input position.
    In input position the result is a node that did not exist before,
    a [GraphQLNonNull] around the type the handler of the node returned,
    and that node is all line 110 adds to the state; in output position
    the result is the handler's type itself and nothing is added.  The
    handler's type is taken not to be a non-null type already, which
    graphql-js would refuse to wrap. *)
Theorem required_wraps_exactly_in_input_position d i st ty st1 :
  presence d "required" = true ->
  typeBeforeWrap d i st = Ok ty st1 ->
  (i = true -> isNonNull st1 ty = false) ->
  exists r st',
    descToType d i st = Ok r st' /\
    if i then
      nodeAt st1 r = None /\
      nodeAt st' r = Some (GraphQLNonNull ty) /\
      heap st' = heap st1 ++ [GraphQLNonNull ty] /\
      cachedTypes st' = cachedTypes st1 /\
      idCounter st' = idCounter st1
    else
      r = ty /\ st' = st1.
Proof.
  intros Hreq Hrun _. rewrite descToType_eq, (bind_Ok _ _ _ _ _ Hrun).
  unfold wrapRequired. rewrite Hreq. destruct i; cbn [andb].
  - unfold new. do 2 eexists. split; [reflexivity |]. cbn [nodeAt heap].
    split; [apply lookup_ge_None; lia |].
    split; [rewrite lookup_app_r by lia; now rewrite Nat.sub_diag |].
    repeat split.
  - do 2 eexists. repeat split.
Qed.

(** ** Unsupported kinds *)

Lemma unsupported_kind_throws d i st :
  handlerOf (type d) = None ->
  exists st1, descToType d i st = Throw (TypeError "is not a function") st1.
Proof.
  intros Hk. rewrite descToType_unfold. unfold descToTypeF.
  destruct (typeNameOf_total d i st) as (tn & st1 & Hn).
  rewrite (bind_Ok _ _ _ _ _ Hn). unfold dispatchF. rewrite Hk.
  exists st1. reflexivity.
Qed.

Lemma mapValuesM_throws {A B} (f : A -> M (state World) B)
    (l : list (string * A)) k a :
  (forall x, frames (f x)) ->
  In (k, a) l ->
  (forall st, exists e st', f a st = Throw e st') ->
  forall st, exists e st',
    mapValuesM f l st = Throw e st' /\ isGenericInvocationError e = true.
Proof.
  intros Hfr Hin Hbad. induction l as [| [k' a'] l IH]; [destruct Hin |].
  intros st. cbn [mapValuesM]. unfold bind at 1.
  pose proof (Hfr a' st) as Hframed.
  destruct (f a' st) as [b s1 | e s1] eqn:Hrun.
  - destruct Hin as [Heq | Hin].
    + injection Heq as -> ->. destruct (Hbad st) as (e & s' & He). congruence.
    + destruct (IH Hin s1) as (e & s' & He & Hg).
      exists e, s'. unfold bind. rewrite He. split; [reflexivity | exact Hg].
  - exists e, s1. split; [reflexivity | apply Hframed].
Qed.

Lemma descsToFields_unsupported descs k d :
  In (k, d) descs -> presence d "forbidden" = false ->
  handlerOf (type d) = None ->
  forall st, exists e st',
    descsToFields descs st = Throw e st' /\ isGenericInvocationError e = true.
Proof.
  intros Hin Hpres Hk st.
  destruct (mapValuesM_throws (fieldOfF descToType) descs k d) with (st := st)
    as (e & st' & He & Hg).
  - intros x. apply frames_fieldOfF, frames_descToType.
  - exact Hin.
  - intros s. unfold fieldOfF. rewrite Hpres.
    destruct (unsupported_kind_throws d false s Hk) as (s1 & Hs1).
    exists (TypeError "is not a function"), s1. unfold bind. now rewrite Hs1.
  - exists e, st'. unfold descsToFields, descsToFieldsF, bind. rewrite He.
    split; [reflexivity | exact Hg].
Qed.

Lemma schemaAttrs_unsupported (j : jois World) descs k d st :
  jquery j = Some descs \/ jmutation j = Some descs ->
  In (k, d) descs -> presence d "forbidden" = false ->
  handlerOf (type d) = None ->
  exists e st',
    schemaAttrs j st = Throw e st' /\ isGenericInvocationError e = true.
Proof.
  intros Hroot Hin Hpres Hk. unfold schemaAttrs, rootType.
  destruct (jquery j) as [qdescs |] eqn:Hq.
  - destruct Hroot as [[= ->] | Hm].
    + destruct (descsToFields_unsupported descs k d Hin Hpres Hk st)
        as (e & st' & He & Hg).
      exists e, st'. unfold bind. rewrite He. split; [reflexivity | exact Hg].
    + rewrite Hm. unfold bind at 1. unfold bind at 1.
      pose proof (frames_descsToFields qdescs st) as Hframed.
      destruct (descsToFields qdescs st) as [fs s1 | e s1].
      * unfold bind at 1. cbn [new ret].
        match goal with
        | |- exists e st', _ ?s = _ /\ _ =>
            destruct (descsToFields_unsupported descs k d Hin Hpres Hk s)
              as (e & st' & He & Hg)
        end.
        exists e, st'. unfold bind. rewrite He.
        split; [reflexivity | exact Hg].
      * exists e, s1. split; [reflexivity | apply Hframed].
  - destruct Hroot as [[=] | Hm]. rewrite Hm.
    destruct (descsToFields_unsupported descs k d Hin Hpres Hk st)
      as (e & st' & He & Hg).
    exists e, st'. unfold bind. cbn [ret]. rewrite He.
    split; [reflexivity | exact Hg].
Qed.

(** C9 (as the code has it).  A description whose kind is none of the
    seven kinds of the dispatch table (nor a name the table inherits)
    makes its translation throw the TypeError of calling a missing table
    entry, a generic invocation error; nothing reports the kind.  The
    error is not caught: a build whose query or mutation fields contain
    such a description, not forbidden, throws and returns no schema. *)
Theorem unsupported_kind_is_a_TypeError d :
  handlerOf (type d) = None -> inherited (type d) = false ->
  (forall i st, exists st1,
      descToType d i st = Throw (TypeError "is not a function") st1) /\
  (forall j descs k st,
      jquery j = Some descs \/ jmutation j = Some descs ->
      In (k, d) descs -> presence d "forbidden" = false ->
      exists e st',
        joiql j st = Throw e st' /\ isGenericInvocationError e = true).
Proof.
  intros Hk _. split; [intros i st; now apply unsupported_kind_throws |].
  intros j descs k st Hroot Hin Hpres. unfold joiql.
  destruct (schemaAttrs_unsupported j descs k d st Hroot Hin Hpres Hk)
    as (e & st' & He & Hg).
  exists e, st'. unfold bind. rewrite He. split; [reflexivity | exact Hg].
Qed.

(** ** Validated resolvers *)

(** C4.  The resolver produced for a description whose first annotation
    supplies [resolve]: with empty arguments it runs the user resolver on
    the raw arguments and never consults Joi; with non-empty arguments
    that Joi rejects it throws Joi's error and leaves the world as it
    was, whatever the user resolver is; with non-empty arguments that Joi
    accepts it runs the user resolver on the value Joi returns. *)
Theorem validatedResolve_validates_nonempty_args
    (Joi_validate : value -> option (list (string * JoiDesc World)) -> validation)
    d (source args_ root opts : value) (w : World) :
  (isEmpty args_ = true ->
   forall f, firstMeta resolve d = Some f ->
   validatedResolve Joi_validate d source args_ root opts w =
   f source args_ root opts w) /\
  (truthy args_ = true -> isEmpty args_ = false ->
   forall error,
   verror (Joi_validate args_ (firstMeta args d)) = Some error ->
   validatedResolve Joi_validate d source args_ root opts w = Throw error w) /\
  (truthy args_ = true -> isEmpty args_ = false ->
   verror (Joi_validate args_ (firstMeta args d)) = None ->
   forall f, firstMeta resolve d = Some f ->
   validatedResolve Joi_validate d source args_ root opts w =
   f source (vvalue (Joi_validate args_ (firstMeta args d))) root opts w).
Proof.
  unfold validatedResolve. repeat split.
  - intros Hempty f Hf. rewrite Hempty, Hf, andb_false_r. reflexivity.
  - intros Ht Hne error Herr. rewrite Ht, Hne, Herr. reflexivity.
  - intros Ht Hne Herr f Hf. rewrite Ht, Hne, Herr, Hf. reflexivity.
Qed.

(** ** Union member resolution *)

Lemma isEqual_eq (a b : list string) : isEqual a b = true <-> a = b.
Proof.
  revert b. induction a as [| x a IH]; intros [| y b]; cbn [isEqual];
    try (split; [discriminate | congruence]); [tauto |].
  rewrite andb_true_iff, IH. split.
  - intros [Hxy ->]. apply String.eqb_eq in Hxy. now subst.
  - intros [= -> ->]. split; [apply String.eqb_refl | reflexivity].
Qed.

Lemma resolveTypeFrom_first (its : list (JoiDesc World)) (types : list tyref)
    val : forall off i item t,
  its !! i = Some item ->
  types !! (off + i) = Some t ->
  matchesCandidate item val = true ->
  (forall j item', j < i -> its !! j = Some item' ->
                   matchesCandidate item' val = false) ->
  resolveTypeFrom off its types val = Some t.
Proof.
  induction its as [| item0 its IH]; intros off i item t Hi Ht Hm Hbefore.
  - discriminate.
  - cbn [resolveTypeFrom]. destruct i as [| i].
    + injection Hi as ->. rewrite Hm. rewrite Nat.add_0_r in Ht.
      now rewrite Ht.
    + rewrite (Hbefore 0 item0) by (first [lia | reflexivity]).
      apply (IH (S off) i item t); [exact Hi | | exact Hm |].
      * now replace (S off + i) with (off + S i) by lia.
      * intros j item' Hj Hl. apply (Hbefore (S j)); [lia | exact Hl].
Qed.

Lemma resolveTypeFrom_none (its : list (JoiDesc World)) (types : list tyref)
    val : forall off,
  (forall item, In item its -> matchesCandidate item val = false) ->
  resolveTypeFrom off its types val = None.
Proof.
  induction its as [| item0 its IH]; intros off Hnone; [reflexivity |].
  cbn [resolveTypeFrom]. rewrite (Hnone item0) by now left.
  apply IH. intros item Hin. apply Hnone. now right.
Qed.

(** C6 (as the code has it).  The member-resolution function of a union
    returns the type of the first candidate, in list order, that matches
    the value, and nothing when no candidate matches.  A candidate
    matches when the first annotation of its metadata carries an
    [isTypeOf] whose result on the value is truthy, or when that
    annotation carries none and the list of the value's keys equals, in
    order, the list of the candidate's child names.  So a candidate whose
    [isTypeOf] accepts the value is returned only if no earlier candidate
    matches. *)
Theorem resolveType_returns_first_match (its : list (JoiDesc World))
    (types : list tyref) val :
  (forall i item t,
      its !! i = Some item -> types !! i = Some t ->
      matchesCandidate item val = true ->
      (forall j item', j < i -> its !! j = Some item' ->
                       matchesCandidate item' val = false) ->
      resolveType its types val = Some t) /\
  ((forall item, In item its -> matchesCandidate item val = false) ->
   resolveType its types val = None) /\
  (forall item,
      matchesCandidate item val = true <->
      (exists p, firstMeta isTypeOf item = Some p /\ truthy (p val) = true) \/
      (firstMeta isTypeOf item = None /\
       keys val = map fst (children item))).
Proof.
  split; [| split].
  - intros i item t Hi Ht Hm Hbefore.
    now apply (resolveTypeFrom_first its types val 0 i item t).
  - apply resolveTypeFrom_none.
  - intros item. unfold matchesCandidate.
    destruct (firstMeta isTypeOf item) as [p |].
    + split.
      * intros Hp. left. eauto.
      * intros [(p' & [= <-] & Hp) | [[=] _]]. exact Hp.
    + rewrite isEqual_eq. split.
      * intros Hk. right. now split.
      * intros [(p' & [=] & _) | [_ Hk]]. exact Hk.
Qed.

(** ** Arrays with a single item *)

Lemma single_item_array_run d i item st tn st1 t st2 :
  handlerOf (type d) = Some Karray ->
  List.filter notForbidden (items d) = [item] ->
  typeNameOf d i st = Ok tn st1 ->
  descToType item i st1 = Ok t st2 ->
  typeBeforeWrap d i st =
  Ok (Ref (length (heap st2)))
     (State (idCounter st2)
        (match cachedTypes st2 !! tn with
         | Some _ => cachedTypes st2
         | None => <[tn := t]> (cachedTypes st2)
         end)
        (heap st2 ++ [GraphQLList t])).
Proof.
  intros Hk Hits Hn Ht.
  rewrite (typeBeforeWrap_eq _ _ _ _ _ Hn), (dispatch_kind _ _ _ _ _ Hk).
  rewrite (array_single _ _ _ _ _ Hits), (bind_Ok _ _ _ _ _ Ht).
  unfold bind. rewrite cacheIfAbsent_run. reflexivity.
Qed.

(** C7.  An array with exactly one item that is not forbidden translates
    to a list of the direct translation of that item: once the item is
    translated, the array handler creates one [GraphQLList] node around
    the item's type and returns it, and it creates nothing else, so no
    union and no composite type.  Line 110 then treats the list as the
    type of any node: in input position with [required] presence it is
    put inside a new non-null node. *)
Theorem single_item_array_is_list_of_item d i item st tn st1 t st2 :
  handlerOf (type d) = Some Karray ->
  List.filter notForbidden (items d) = [item] ->
  typeNameOf d i st = Ok tn st1 ->
  descToType item i st1 = Ok t st2 ->
  (exists stl,
      typeBeforeWrap d i st = Ok (Ref (length (heap st2))) stl /\
      nodeAt stl (Ref (length (heap st2))) = Some (GraphQLList t) /\
      heap stl = heap st2 ++ [GraphQLList t]) /\
  exists st',
    descToType d i st =
      Ok (if i && presence d "required"
          then Ref (S (length (heap st2))) else Ref (length (heap st2))) st' /\
    heap st' =
      heap st2 ++ GraphQLList t ::
        (if i && presence d "required"
         then [GraphQLNonNull (Ref (length (heap st2)))] else []).
Proof.
  intros Hk Hits Hn Ht.
  pose proof (single_item_array_run _ _ _ _ _ _ _ _ Hk Hits Hn Ht) as Hrun.
  split.
  { eexists. split; [exact Hrun |]. cbn [nodeAt heap].
    split; [| reflexivity].
    rewrite lookup_app_r by lia. now rewrite Nat.sub_diag. }
  clear Hrun. rewrite descToType_eq.
  rewrite (bind_Ok _ _ _ _ _ (single_item_array_run _ _ _ _ _ _ _ _ Hk Hits Hn Ht)).
  unfold wrapRequired. destruct (i && presence d "required").
  - eexists. split.
    + unfold new. cbn [heap]. rewrite length_app. cbn [length].
      rewrite Nat.add_1_r. reflexivity.
    + cbn [heap]. now rewrite <- app_assoc.
  - eexists. split; reflexivity.
Qed.

(** C10 (as the code has it).  Translating an array with exactly one
    item that is not forbidden stores the translated type of that item
    under the array's own type name, when the cache has no entry for
    that name once the item is translated, and leaves the cache as it is
    otherwise.  Every translation started while the cache holds the
    item's type under the name keeps it there, and an object description
    that computes the name, like a synthesis under it, is then given the
    item's type. *)
Theorem single_item_array_caches_item_type d i item st tn st1 t st2 :
  handlerOf (type d) = Some Karray ->
  List.filter notForbidden (items d) = [item] ->
  typeNameOf d i st = Ok tn st1 ->
  inherited tn = false ->
  descToType item i st1 = Ok t st2 ->
  exists r st',
    descToType d i st = Ok r st' /\
    cachedTypes st' =
      match cachedTypes st2 !! tn with
      | Some _ => cachedTypes st2
      | None => <[tn := t]> (cachedTypes st2)
      end /\
    (cachedTypes st2 !! tn = None -> cachedTypes st' !! tn = Some t) /\
    (forall st'' d3 i3,
        cachedTypes st'' !! tn = Some t ->
        cachedTypes (stateOf (descToType d3 i3 st'')) !! tn = Some t) /\
    (forall st'' d2 i2 st3,
        cachedTypes st'' !! tn = Some t ->
        handlerOf (type d2) = Some Kobject ->
        typeNameOf d2 i2 st'' = Ok tn st3 ->
        typeBeforeWrap d2 i2 st'' = Ok t st3) /\
    (forall st'' i2 d2 its types st3,
        cachedTypes st'' !! tn = Some t ->
        mapM (fun item => descToType item i2) its st'' = Ok types st3 ->
        makeArrayAlternativeType i2 tn d2 its st'' = Ok t st3).
Proof.
  intros Hk Hits Hn _ Ht.
  pose proof (single_item_array_run _ _ _ _ _ _ _ _ Hk Hits Hn Ht) as Hrun.
  assert (Hkeeps : forall st'' d3 i3,
             cachedTypes st'' !! tn = Some t ->
             cachedTypes (stateOf (descToType d3 i3 st'')) !! tn = Some t).
  { intros st'' d3 i3 Hc. pose proof (frames_descToType d3 i3 st'') as Hf.
    destruct (descToType d3 i3 st'') as [r s | e s]; cbn [framed stateOf] in *;
      [| destruct Hf as [Hf _]]; eapply extends_cached; eassumption. }
  assert (Hobject : forall st'' d2 i2 st3,
             cachedTypes st'' !! tn = Some t ->
             handlerOf (type d2) = Some Kobject ->
             typeNameOf d2 i2 st'' = Ok tn st3 ->
             typeBeforeWrap d2 i2 st'' = Ok t st3).
  { intros st'' d2 i2 st3 Hc Hk2 Hn2.
    rewrite (typeBeforeWrap_eq _ _ _ _ _ Hn2), (dispatch_kind _ _ _ _ _ Hk2).
    apply object_cached.
    now destruct (typeNameOf_state _ _ _ _ _ Hn2) as [-> _]. }
  assert (Hsynth : forall st'' i2 d2 its types st3,
             cachedTypes st'' !! tn = Some t ->
             mapM (fun item => descToType item i2) its st'' = Ok types st3 ->
             makeArrayAlternativeType i2 tn d2 its st'' = Ok t st3).
  { intros st'' i2 d2 its types st3 Hc Hm.
    rewrite (makeArrayAlternativeType_translated _ _ _ _ _ _ _ Hm).
    pose proof (frames_mapM (fun item => descToType item i2) its
                  (fun a _ => frames_descToType a i2) st'') as Hf.
    rewrite Hm in Hf. cbn [framed] in Hf.
    now rewrite (extends_cached _ _ _ _ Hf Hc). }
  rewrite descToType_eq, (bind_Ok _ _ _ _ _ Hrun). unfold wrapRequired.
  destruct (i && presence d "required");
    do 2 eexists; (split; [reflexivity |]); (split; [reflexivity |]);
    (split; [| split; [exact Hkeeps | split; [exact Hobject | exact Hsynth]]]);
    intros Hnone; cbn [new cachedTypes]; rewrite Hnone;
    apply lookup_insert_eq.
Qed.

(** ** The type cache *)

Lemma object_hit d i st tn st1 t :
  handlerOf (type d) = Some Kobject ->
  typeNameOf d i st = Ok tn st1 ->
  cachedTypes st !! tn = Some t ->
  typeBeforeWrap d i st = Ok t st1.
Proof.
  intros Hk Hn Hc.
  rewrite (typeBeforeWrap_eq _ _ _ _ _ Hn), (dispatch_kind _ _ _ _ _ Hk).
  apply object_cached. destruct (typeNameOf_state _ _ _ _ _ Hn) as [-> _].
  exact Hc.
Qed.

(** C1 (as the code has it).  A name that is in the cache when a
    translation starts keeps its node through that translation, and the
    node stays as it was created.  An object description that computes
    a cached name translates to the cached node itself, with no child
    translated, no node created and the cache unchanged -- inside a new
    non-null node when the description is required and in input position.
    The synthesizer for arrays and alternatives returns the node cached
    under the composite name once it has translated the candidates.  In
    particular two object descriptions whose first annotation gives the
    same non-empty name, translated one after the other in the same
    position and not required in input position, yield the same node.
    The descriptions of scalar kinds translate to their scalar type
    whatever the cache holds under their name. *)
Theorem cached_name_resolves_to_cached_node :
  (forall d i st tn t l n,
      cachedTypes st !! tn = Some t -> heap st !! l = Some n ->
      match descToType d i st with
      | Ok _ st' | Throw _ st' =>
          cachedTypes st' !! tn = Some t /\ heap st' !! l = Some n
      end) /\
  (forall d i st tn st1 t,
      handlerOf (type d) = Some Kobject ->
      typeNameOf d i st = Ok tn st1 ->
      cachedTypes st !! tn = Some t ->
      typeBeforeWrap d i st = Ok t st1 /\
      cachedTypes st1 = cachedTypes st /\ heap st1 = heap st /\
      descToType d i st = wrapRequired d i t st1) /\
  (forall i tn d its st t types st2,
      cachedTypes st !! tn = Some t ->
      mapM (fun item => descToType item i) its st = Ok types st2 ->
      makeArrayAlternativeType i tn d its st = Ok t st2) /\
  (forall d1 d2 i n st r st1,
      handlerOf (type d1) = Some Kobject ->
      handlerOf (type d2) = Some Kobject ->
      firstMeta name d1 = Some n -> firstMeta name d2 = Some n -> n <> "" ->
      i && presence d1 "required" = false ->
      i && presence d2 "required" = false ->
      descToType d1 i st = Ok r st1 ->
      descToType d2 i st1 = Ok r st1) /\
  (forall d i st tn st1 k,
      handlerOf (type d) = Some k ->
      k = Kboolean \/ k = Kdate \/ k = Kstring \/ k = Knumber ->
      typeNameOf d i st = Ok tn st1 ->
      exists t,
        typeBeforeWrap d i st = Ok t st1 /\ forall loc, t <> Ref loc).
Proof.
  split; [| split; [| split; [| split]]].
  - intros d i st tn t l n Hc Hl.
    pose proof (frames_descToType d i st) as Hf.
    destruct (descToType d i st) as [r st' | e st']; cbn [framed] in Hf.
    + split; [now apply (extends_cached st st') |
              now apply (extends_heap st st')].
    + destruct Hf as [Hf _].
      split; [now apply (extends_cached st st') |
              now apply (extends_heap st st')].
  - intros d i st tn st1 t Hk Hn Hc.
    pose proof (object_hit _ _ _ _ _ _ Hk Hn Hc) as Hhit.
    destruct (typeNameOf_state _ _ _ _ _ Hn) as [Hcs Hhs].
    repeat split; try assumption.
    rewrite descToType_eq. now rewrite (bind_Ok _ _ _ _ _ Hhit).
  - intros i tn d its st t types st2 Hc Hm.
    rewrite (makeArrayAlternativeType_translated _ _ _ _ _ _ _ Hm).
    assert (Hf : framed st (mapM (fun item => descToType item i) its st)).
    { apply frames_mapM. intros item _. apply frames_descToType. }
    rewrite Hm in Hf. cbn [framed] in Hf.
    now rewrite (extends_cached st st2 tn t Hf Hc).
  - intros d1 d2 i n st r st1 Hk1 Hk2 Hn1 Hn2 Hne Hr1 Hr2 Hrun.
    pose proof (typeNameOf_named d1 i st n Hn1 Hne) as Hname1.
    rewrite descToType_eq in Hrun. apply bind_inv_Ok in Hrun.
    destruct Hrun as (t & s & Hbefore & Hwrap).
    unfold wrapRequired in Hwrap. rewrite Hr1 in Hwrap.
    injection Hwrap as -> ->.
    rewrite (typeBeforeWrap_eq _ _ _ _ _ Hname1) in Hbefore.
    rewrite (dispatch_kind _ _ _ _ _ Hk1) in Hbefore.
    apply object_stores in Hbefore.
    pose proof (typeNameOf_named d2 i st1 n Hn2 Hne) as Hname2.
    rewrite descToType_eq.
    rewrite (bind_Ok _ _ _ _ _ (object_hit _ _ _ _ _ _ Hk2 Hname2 Hbefore)).
    unfold wrapRequired. now rewrite Hr2.
  - intros d i st tn st1 k Hk Hscalar Hn.
    rewrite (typeBeforeWrap_eq _ _ _ _ _ Hn), (dispatch_kind _ _ _ _ _ Hk).
    unfold handlers.
    destruct Hscalar as [-> | [-> | [-> | ->]]]; cbn [handlersF];
      eexists; (split; [reflexivity |]); try discriminate.
    intros loc. now destruct (existsb _ _).
Qed.

(** ** Merging the children of input candidates *)

Lemma assoc_assignKey_eq {A} (t : list (string * A)) k a :
  assoc k (assignKey t k a) = Some a.
Proof.
  induction t as [| [k' a'] t IH]; cbn [assignKey assoc].
  - now rewrite String.eqb_refl.
  - destruct (String.eqb k' k) eqn:Hk; cbn [assoc]; now rewrite Hk.
Qed.

Lemma assoc_assignKey_ne {A} (t : list (string * A)) k k' a :
  k <> k' -> assoc k (assignKey t k' a) = assoc k t.
Proof.
  intros Hne. induction t as [| [k0 a0] t IH]; cbn [assignKey assoc].
  - destruct (String.eqb_spec k' k); [congruence | reflexivity].
  - destruct (String.eqb_spec k0 k') as [-> | Hk0]; cbn [assoc].
    + destruct (String.eqb_spec k' k); [congruence | reflexivity].
    + destruct (String.eqb k0 k); [reflexivity | exact IH].
Qed.

Lemma assoc_None {A} (l : list (string * A)) k :
  assoc k l = None <-> ~ In k (map fst l).
Proof.
  induction l as [| [k' a] l IH]; cbn [assoc map fst In]; [tauto |].
  destruct (String.eqb_spec k' k) as [-> | Hne].
  - split; [discriminate | intros Hn; exfalso; apply Hn; now left].
  - rewrite IH. tauto.
Qed.

Lemma assoc_assignFrom_absent {A} (source target : list (string * A)) k :
  assoc k source = None ->
  assoc k (assignFrom target source) = assoc k target.
Proof.
  revert target. induction source as [| [k' a] source IH]; intros target;
    [reflexivity |].
  cbn [assoc]. destruct (String.eqb_spec k' k) as [-> | Hne]; [discriminate |].
  intros Hnone. unfold assignFrom. cbn [fold_left fst snd].
  fold (assignFrom (assignKey target k' a) source).
  rewrite (IH _ Hnone). apply assoc_assignKey_ne. congruence.
Qed.

Lemma assoc_assignFrom_present {A} (source target : list (string * A)) k c :
  NoDup (map fst source) -> assoc k source = Some c ->
  assoc k (assignFrom target source) = Some c.
Proof.
  revert target. induction source as [| [k' a] source IH]; intros target;
    [discriminate |].
  cbn [map fst assoc]. intros Hnd Hc. apply NoDup_cons in Hnd.
  destruct Hnd as [Hnotin Hnd].
  unfold assignFrom. cbn [fold_left fst snd].
  fold (assignFrom (assignKey target k' a) source).
  destruct (String.eqb_spec k' k) as [-> | Hne].
  - injection Hc as ->. rewrite assoc_assignFrom_absent.
    + apply assoc_assignKey_eq.
    + apply assoc_None. rewrite <- list_elem_of_In. exact Hnotin.
  - now apply IH.
Qed.

Lemma assoc_fold_assignFrom_absent {A}
    (sources : list (list (string * A))) : forall target k,
  (forall o, In o sources -> assoc k o = None) ->
  assoc k (fold_left assignFrom sources target) = assoc k target.
Proof.
  induction sources as [| s sources IH]; intros target k Hnone;
    [reflexivity |].
  cbn [fold_left]. rewrite IH by (intros o Ho; apply Hnone; now right).
  apply assoc_assignFrom_absent, Hnone. now left.
Qed.

(** The value merged under a key is the one of the last object that has
    the key. *)
Lemma assign_last_wins {A} (before after : list (list (string * A))) o k c :
  assoc k o = Some c -> NoDup (map fst o) ->
  (forall o', In o' after -> assoc k o' = None) ->
  assoc k (assign (before ++ o :: after)) = Some c.
Proof.
  intros Hc Hnd Hafter. destruct before as [| target before].
  - cbn [app assign]. now rewrite assoc_fold_assignFrom_absent.
  - cbn [app assign]. rewrite fold_left_app. cbn [fold_left].
    rewrite assoc_fold_assignFrom_absent by exact Hafter.
    now apply assoc_assignFrom_present.
Qed.

Lemma assign_absent {A} (objects : list (list (string * A))) k :
  (forall o, In o objects -> assoc k o = None) ->
  assoc k (assign objects) = None.
Proof.
  intros Hnone. destruct objects as [| target sources]; [reflexivity |].
  cbn [assign]. rewrite assoc_fold_assignFrom_absent.
  - apply Hnone. now left.
  - intros o Ho. apply Hnone. now right.
Qed.

Lemma fieldOf_keeps (x : JoiDesc World) s b s' :
  fieldOfF descToType x s = Ok b s' -> is_Some b <-> notForbidden x = true.
Proof.
  unfold fieldOfF, notForbidden. destruct (presence x "forbidden").
  - intros [= <- <-]. split; [intros [y Hy]; discriminate | discriminate].
  - intros Hrun. apply bind_inv_Ok in Hrun.
    destruct Hrun as (t & s1 & _ & Hrun). apply bind_inv_Ok in Hrun.
    destruct Hrun as (a & s2 & _ & Hret). injection Hret as <- <-.
    split; [reflexivity | eauto].
Qed.

Lemma descsToFields_keys descs st fs st' :
  descsToFields descs st = Ok fs st' ->
  map fst fs = map fst (List.filter (fun kv => notForbidden (snd kv)) descs).
Proof.
  unfold descsToFields, descsToFieldsF. intros Hrun.
  apply bind_inv_Ok in Hrun. destruct Hrun as (bs & s1 & Hmap & Hret).
  injection Hret as <- <-.
  eapply mapValuesM_keys; [| exact Hmap]. apply fieldOf_keeps.
Qed.

(** The fields built for a hash: one per entry that is not forbidden,
    under its name, closing over its description. *)
Lemma descsToFields_shape descs st fs st' :
  descsToFields descs st = Ok fs st' ->
  Forall2 (fun kc kf =>
             fst kf = fst kc /\ exists t a, snd kf = fieldFor (snd kc) t a)
          (List.filter (fun kc => notForbidden (snd kc)) descs) fs.
Proof.
  unfold descsToFields, descsToFieldsF. intros Hrun.
  apply bind_inv_Ok in Hrun. destruct Hrun as (bs & s1 & Hmap & Hret).
  injection Hret as <- <-. revert st bs Hmap.
  induction descs as [| [k c] descs IH]; intros st bs; cbn [mapValuesM].
  - intros [= <- <-]. constructor.
  - intros Hrun. apply bind_inv_Ok in Hrun.
    destruct Hrun as (b & s2 & Hb & Hrun). apply bind_inv_Ok in Hrun.
    destruct Hrun as (bs' & s3 & Hrec & Hret). injection Hret as <- <-.
    specialize (IH _ _ Hrec). cbn [List.filter snd]. unfold notForbidden at 1.
    unfold fieldOfF in Hb. destruct (presence c "forbidden"); cbn [negb].
    + injection Hb as <- <-. exact IH.
    + apply bind_inv_Ok in Hb. destruct Hb as (t & s4 & _ & Hb).
      apply bind_inv_Ok in Hb. destruct Hb as (a & s5 & _ & Hret).
      injection Hret as <- <-. cbn [omitNull]. constructor; [| exact IH].
      cbn [fst snd]. split; [reflexivity |]. now exists t, a.
Qed.

(** C8 (as the code has it).  In input position, for a name that is
    not cached once the candidates are translated, the synthesizer
    creates one [GraphQLInputObjectType] of that name whose fields are,
    in order, the Field Synthesizer's fields for the children of the
    merge of the children of all candidates that are not forbidden, each
    under the child's name and closing over the child's description.
    In the merge the child under a name is the one of the last candidate
    that has a child of that name, and a name no candidate has is
    absent; merging raises nothing.  The name is taken to be a name
    graphql-js accepts and the cache does not inherit, and the names of
    the children not to be array indices. *)
Theorem input_synthesis_merges_children tn d its st types st2 r st' :
  mapM (fun item => descToType item true) its st = Ok types st2 ->
  cachedTypes st2 !! tn = None ->
  inherited tn = false -> graphqlName tn = true ->
  (forall item k, In item its -> In k (map fst (children item)) ->
                  numericKey k = false) ->
  makeArrayAlternativeType true tn d its st = Ok r st' ->
  (exists fields,
      nodeAt st' r = Some (GraphQLInputObjectType tn (description d) fields) /\
      nodeAt st2 r = None /\
      Forall2 (fun kc kf =>
                 fst kf = fst kc /\
                 exists t a, snd kf = fieldFor (snd kc) t a)
              (List.filter (fun kc => notForbidden (snd kc))
                 (assign (flatten (map children its))))
              fields) /\
  (forall before item after k c,
      its = before ++ item :: after ->
      assoc k (children item) = Some c ->
      NoDup (map fst (children item)) ->
      (forall item', In item' after -> assoc k (children item') = None) ->
      assoc k (assign (flatten (map children its))) = Some c) /\
  (forall k,
      (forall item, In item its -> assoc k (children item) = None) ->
      assoc k (assign (flatten (map children its))) = None).
Proof.
  intros Hm Hnone _ _ _ Hrun. split; [| split].
  - rewrite (makeArrayAlternativeType_translated _ _ _ _ _ _ _ Hm), Hnone
      in Hrun.
    apply bind_inv_Ok in Hrun. destruct Hrun as (fields & s3 & Hf & Hnew).
    unfold new in Hnew. injection Hnew as <- <-.
    pose proof (frames_descsToFields
                  (assign (flatten (map children its))) st2) as He.
    rewrite Hf in He. cbn [framed] in He. destruct He as (_ & Hp & _).
    apply prefix_length in Hp.
    exists fields. cbn [nodeAt heap]. split; [| split].
    + rewrite lookup_app_r by lia. now rewrite Nat.sub_diag.
    + apply lookup_ge_None. lia.
    + eapply descsToFields_shape, Hf.
  - intros before item after k c -> Hc Hnd Hafter. unfold flatten.
    rewrite map_app. cbn [map]. apply assign_last_wins; [exact Hc | exact Hnd |].
    intros o' Ho'. apply in_map_iff in Ho'. destruct Ho' as (item' & <- & Hin).
    now apply Hafter.
  - intros k Habsent. apply assign_absent. intros o Ho. unfold flatten in Ho.
    apply in_map_iff in Ho. destruct Ho as (item & <- & Hin). now apply Habsent.
Qed.

(** ** Forbidden presence *)

Lemma inputFields_keys chs st fs st' :
  inputFields chs st = Ok fs st' ->
  map fst fs = map fst (List.filter (fun kv => notForbidden (snd kv)) chs).
Proof.
  unfold inputFields, inputFieldsF. intros Hrun.
  apply bind_inv_Ok in Hrun. destruct Hrun as (bs & s1 & Hmap & Hret).
  injection Hret as <- <-.
  eapply mapValuesM_keys; [| exact Hmap].
  intros x s b s'. unfold notForbidden. destruct (presence x "forbidden").
  - intros [= <- <-]. split; [intros [y Hy]; discriminate | discriminate].
  - intros Hrun. apply bind_inv_Ok in Hrun.
    destruct Hrun as (t & s2 & _ & Hret). injection Hret as <- <-.
    split; [reflexivity | eauto].
Qed.

Lemma descToArgs_keys d st a st' :
  descToArgs d st = Ok (Some a) st' ->
  exists argsSchema,
    firstMeta args d = Some argsSchema /\
    map fst a =
      map fst (List.filter (fun kv => notForbidden (snd kv)) argsSchema).
Proof.
  unfold descToArgs, descToArgsF.
  destruct (firstMeta args d) as [argsSchema |]; [| discriminate].
  intros Hrun. exists argsSchema. split; [reflexivity |].
  apply bind_inv_Ok in Hrun. destruct Hrun as (bs & s1 & Hmap & Hret).
  injection Hret as <- <-.
  eapply mapValuesM_keys; [| exact Hmap].
  intros x s b s'. unfold notForbidden. destruct (presence x "forbidden").
  - intros [= <- <-]. split; [intros [y Hy]; discriminate | discriminate].
  - intros Hrun. apply bind_inv_Ok in Hrun.
    destruct Hrun as (t & s2 & _ & Hret). injection Hret as <- <-.
    split; [reflexivity | eauto].
Qed.

(** An alternatives node in output position whose name is not cached. *)
Lemma alternatives_union_run d st tn st1 types st2 :
  handlerOf (type d) = Some Kalternatives ->
  typeNameOf d false st = Ok tn st1 ->
  mapM (fun item => descToType item false)
       (List.filter notForbidden (alternatives d)) st1 = Ok types st2 ->
  cachedTypes st2 !! tn = None ->
  typeBeforeWrap d false st =
  Ok (Ref (length (heap st2)))
     (State (idCounter st2)
        (<[tn := Ref (length (heap st2))]> (cachedTypes st2))
        (heap st2 ++
           [GraphQLUnionType tn (description d) types
              (List.filter notForbidden (alternatives d))])).
Proof.
  intros Hk Hn Hm Hnone.
  rewrite (typeBeforeWrap_eq _ _ _ _ _ Hn), (dispatch_kind _ _ _ _ _ Hk).
  rewrite alternatives_handler. unfold bind at 1.
  rewrite (makeArrayAlternativeType_translated _ _ _ _ _ _ _ Hm), Hnone.
  cbn [new]. unfold bind. rewrite cacheIfAbsent_run. cbn. now rewrite Hnone.
Qed.

(** An array in output position with several items (or none) and a
    composite name that is not cached. *)
Lemma nodeAt_prefix (st st' : state World) r (n : node World) :
  heap st `prefix_of` heap st' -> nodeAt st r = Some n ->
  nodeAt st' r = Some n.
Proof.
  destruct r; cbn [nodeAt]; try discriminate. intros Hp Hl.
  eapply prefix_lookup_Some; eassumption.
Qed.

Lemma typeNameAt_prefix (st st' : state World) r tn :
  heap st `prefix_of` heap st' -> typeNameAt st r = Some tn ->
  typeNameAt st' r = Some tn.
Proof.
  unfold typeNameAt. intros Hp.
  destruct (nodeAt st r) as [n |] eqn:Hn; [| discriminate].
  now rewrite (nodeAt_prefix _ _ _ _ Hp Hn).
Qed.

(** The array handler with several remaining items, once the composite
    name is computed: lines 96-99. *)
Lemma array_several_run d i st tn st1 cn st1' :
  handlerOf (type d) = Some Karray ->
  1 < length (List.filter notForbidden (items d)) ->
  typeNameOf d i st = Ok tn st1 ->
  compositeName i (List.filter notForbidden (items d)) st1 = Ok cn st1' ->
  typeBeforeWrap d i st =
  (t <- makeArrayAlternativeType i cn d
          (List.filter notForbidden (items d)) ;;
   cacheIfAbsent cn t ;;; new (GraphQLList t)) st1'.
Proof.
  intros Hk Hlen Hn Hcn. destruct (filter_several _ _ Hlen) as [Hne Hlen1].
  rewrite (typeBeforeWrap_eq _ _ _ _ _ Hn), (dispatch_kind _ _ _ _ _ Hk).
  rewrite (array_composite _ _ _ _ Hne Hlen1). cbn zeta.
  now rewrite (bind_Ok _ _ _ _ _ Hcn).
Qed.

(** The synthesizer on a cache miss: the type it returns is new and has
    the name it was passed. *)
Lemma synthesized_under_name i tn d its st types st2 u s3 :
  mapM (fun item => descToType item i) its st = Ok types st2 ->
  cachedTypes st2 !! tn = None ->
  makeArrayAlternativeType i tn d its st = Ok u s3 ->
  typeNameAt s3 u = Some tn /\ nodeAt st2 u = None /\
  (if i then True
   else nodeAt s3 u = Some (GraphQLUnionType tn (description d) types its)).
Proof.
  intros Hm Hnone.
  rewrite (makeArrayAlternativeType_translated _ _ _ _ _ _ _ Hm), Hnone.
  destruct i.
  - intros Hrun. apply bind_inv_Ok in Hrun.
    destruct Hrun as (fields & s2 & Hf & Hnew).
    unfold new in Hnew. injection Hnew as <- <-.
    pose proof (frames_descsToFields
                  (assign (flatten (map children its))) st2) as He.
    rewrite Hf in He. cbn [framed] in He. destruct He as (_ & Hp & _).
    apply prefix_length in Hp.
    unfold typeNameAt. cbn [nodeAt heap]. split; [| split; [| exact I]].
    + rewrite lookup_app_r by lia. now rewrite Nat.sub_diag.
    + apply lookup_ge_None. lia.
  - unfold new. intros [= <- <-]. unfold typeNameAt. cbn [nodeAt heap].
    rewrite lookup_app_r by lia. rewrite Nat.sub_diag.
    split; [reflexivity |]. split; [| reflexivity].
    apply lookup_ge_None. lia.
Qed.

Lemma array_union_run d st tn st1 cn st1' types st2 :
  handlerOf (type d) = Some Karray ->
  1 < length (List.filter notForbidden (items d)) ->
  typeNameOf d false st = Ok tn st1 ->
  compositeName false (List.filter notForbidden (items d)) st1 = Ok cn st1' ->
  mapM (fun item => descToType item false)
       (List.filter notForbidden (items d)) st1' = Ok types st2 ->
  cachedTypes st2 !! cn = None ->
  typeBeforeWrap d false st =
  Ok (Ref (S (length (heap st2))))
     (State (idCounter st2)
        (<[cn := Ref (length (heap st2))]> (cachedTypes st2))
        (heap st2 ++
           [GraphQLUnionType cn (description d) types
              (List.filter notForbidden (items d));
            GraphQLList (Ref (length (heap st2)))])).
Proof.
  intros Hk Hlen Hn Hcn Hm Hnone.
  rewrite (array_several_run _ _ _ _ _ _ _ Hk Hlen Hn Hcn). unfold bind at 1.
  rewrite (makeArrayAlternativeType_translated _ _ _ _ _ _ _ Hm), Hnone.
  cbn [new]. unfold bind. rewrite cacheIfAbsent_run. cbn. rewrite Hnone.
  unfold new. cbn [heap idCounter cachedTypes]. rewrite length_app.
  cbn [length]. rewrite Nat.add_1_r, <- app_assoc. reflexivity.
Qed.

Lemma filter_idem {A} (p : A -> bool) (l : list A) :
  List.filter p (List.filter p l) = List.filter p l.
Proof.
  induction l as [| a l IH]; [reflexivity |]. cbn [List.filter].
  destruct (p a) eqn:Hp; [| exact IH]. cbn [List.filter]. rewrite Hp.
  now f_equal.
Qed.

Lemma descToType_withoutForbidden d i st :
  (handlerOf (type d) = Some Karray -> items d <> [] ->
   List.filter notForbidden (items d) <> []) ->
  descToType (withoutForbidden d) i st = descToType d i st.
Proof.
  rewrite !descToType_unfold. destruct d as [ty fl me ru ch it al de].
  unfold withoutForbidden, descToTypeF, dispatchF, wrapRequired, typeNameOf,
    firstMeta, presence.
  cbn [type flags meta rules children items alternatives description].
  intros Hleft. destruct (handlerOf ty) as [k |]; [| reflexivity].
  destruct k; cbn [handlersF]; try reflexivity;
    cbn [type flags meta rules children items alternatives description];
    rewrite filter_idem; [| reflexivity].
  destruct it as [| it0 its0]; [reflexivity |].
  specialize (Hleft eq_refl ltac:(discriminate)).
  destruct (List.filter notForbidden (it0 :: its0)); [now destruct Hleft |].
  reflexivity.
Qed.

(** C3.  A child, argument, item or branch with [forbidden] presence
    never reaches the result, in either position, and the others all do:
    the names of the fields of an output object, of the fields of an
    input object and of the arguments are the names of the entries that
    are not forbidden, in order; the members of the union built for an
    alternatives node or for an array with several items left are the
    translations of the branches or items that are not forbidden, in
    order; and in either position a description translates as it does
    once its forbidden items and branches are removed, unless that takes
    the last item from an array. *)
Theorem forbidden_entries_are_left_out :
  (forall descs st fs st',
      descsToFields descs st = Ok fs st' ->
      map fst fs =
        map fst (List.filter (fun kv => notForbidden (snd kv)) descs)) /\
  (forall chs st fs st',
      inputFields chs st = Ok fs st' ->
      map fst fs =
        map fst (List.filter (fun kv => notForbidden (snd kv)) chs)) /\
  (forall d st a st',
      descToArgs d st = Ok (Some a) st' ->
      exists argsSchema,
        firstMeta args d = Some argsSchema /\
        map fst a =
          map fst (List.filter (fun kv => notForbidden (snd kv)) argsSchema)) /\
  (forall d st tn st1 types st2,
      handlerOf (type d) = Some Kalternatives ->
      List.filter notForbidden (alternatives d) <> [] ->
      typeNameOf d false st = Ok tn st1 ->
      inherited tn = false -> graphqlName tn = true ->
      mapM (fun item => descToType item false)
           (List.filter notForbidden (alternatives d)) st1 = Ok types st2 ->
      cachedTypes st2 !! tn = None ->
      exists st',
        descToType d false st = Ok (Ref (length (heap st2))) st' /\
        heap st' !! length (heap st2) =
          Some (GraphQLUnionType tn (description d) types
                  (List.filter notForbidden (alternatives d))) /\
        length types = length (List.filter notForbidden (alternatives d))) /\
  (forall d st tn st1 cn st1' types st2,
      handlerOf (type d) = Some Karray ->
      1 < length (List.filter notForbidden (items d)) ->
      typeNameOf d false st = Ok tn st1 ->
      compositeName false (List.filter notForbidden (items d)) st1 =
        Ok cn st1' ->
      inherited cn = false -> graphqlName cn = true ->
      mapM (fun item => descToType item false)
           (List.filter notForbidden (items d)) st1' = Ok types st2 ->
      cachedTypes st2 !! cn = None ->
      exists st',
        descToType d false st = Ok (Ref (S (length (heap st2)))) st' /\
        heap st' !! S (length (heap st2)) =
          Some (GraphQLList (Ref (length (heap st2)))) /\
        heap st' !! length (heap st2) =
          Some (GraphQLUnionType cn (description d) types
                  (List.filter notForbidden (items d))) /\
        length types = length (List.filter notForbidden (items d))) /\
  (forall d i st,
      (handlerOf (type d) = Some Karray -> items d <> [] ->
       List.filter notForbidden (items d) <> []) ->
      descToType (withoutForbidden d) i st = descToType d i st).
Proof.
  split; [exact descsToFields_keys |].
  split; [exact inputFields_keys |].
  split; [exact descToArgs_keys |].
  split; [| split; [| intros d i st; apply descToType_withoutForbidden]].
  - intros d st tn st1 types st2 Hk _ Hn _ _ Hm Hnone. eexists.
    rewrite descToType_output.
    split; [now apply (alternatives_union_run d st tn st1 types st2) |].
    cbn [heap]. split.
    + rewrite lookup_app_r by lia. now rewrite Nat.sub_diag.
    + eapply mapM_length, Hm.
  - intros d st tn st1 cn st1' types st2 Hk Hlen Hn Hcn _ _ Hm Hnone.
    eexists.
    rewrite descToType_output.
    split; [now apply (array_union_run d st tn st1 cn st1' types st2) |].
    cbn [heap]. split; [| split].
    + rewrite lookup_app_r by lia.
      now replace (S (length (heap st2)) - length (heap st2)) with 1 by lia.
    + rewrite lookup_app_r by lia. now rewrite Nat.sub_diag.
    + eapply mapM_length, Hm.
Qed.

(** ** Composite names *)

Lemma itemName_spec i d st :
  itemName i d st =
  Ok (inputPrefix i +:+
        fst (if String.eqb (capitalize (Some (type d))) ""
             then ("Anon" +:+ string_of_nat (S (idCounter st)),
                   S (idCounter st))
             else (capitalize (Some (type d)), idCounter st)))
     (State
        (snd (if String.eqb (capitalize (Some (type d))) ""
              then ("Anon" +:+ string_of_nat (S (idCounter st)),
                    S (idCounter st))
              else (capitalize (Some (type d)), idCounter st)))
        (cachedTypes st) (heap st)).
Proof.
  unfold itemName, metaArrayName, orAnon, capitalize at 1.
  assert (Hmeta : match meta d with
                  | [] => ""
                  | _ :: _ => upperFirst (toLowerCase (default "" None))
                  end = "")
    by (destruct (meta d); reflexivity).
  rewrite Hmeta. cbn [String.eqb negb].
  destruct (String.eqb (capitalize (Some (type d))) "");
    destruct st; reflexivity.
Qed.

Lemma compositeName_spec i (its : list (JoiDesc World)) st :
  compositeName i its st =
  Ok (join "Or" (fst (itemNamesFrom i (idCounter st) its)))
     (State (snd (itemNamesFrom i (idCounter st) its))
        (cachedTypes st) (heap st)).
Proof.
  unfold compositeName.
  assert (Hmap : forall st,
             mapM (itemName i) its st =
             Ok (fst (itemNamesFrom i (idCounter st) its))
                (State (snd (itemNamesFrom i (idCounter st) its))
                   (cachedTypes st) (heap st))).
  { induction its as [| d its IH]; intros s.
    - destruct s; reflexivity.
    - cbn [mapM itemNamesFrom]. rewrite (bind_Ok _ _ _ _ _ (itemName_spec i d s)).
      rewrite (bind_Ok _ _ _ _ _ (IH _)). reflexivity. }
  now rewrite (bind_Ok _ _ _ _ _ (Hmap st)).
Qed.

Lemma itemNamesFrom_named i (its : list (JoiDesc World)) : forall counter,
  Forall2 (namedByKind i) its (fst (itemNamesFrom i counter its)).
Proof.
  induction its as [| d its IH]; intros counter; cbn [itemNamesFrom fst];
    constructor; [| apply IH].
  unfold namedByKind. destruct (String.eqb (capitalize (Some (type d))) "");
    cbn [fst]; eauto.
Qed.

(** C5 (as the code has it).  The composite name of a list of items is
    the "Or"-joined list, in order, of one name per item, each after
    "Input" in input position; the name of an item without name metadata
    is its capitalized kind (an anonymous counter name when the kind is
    empty), the counter being threaded from left to right.  An array with
    several items left passes that name to the synthesizer, and the type
    synthesized on a cache miss has that name, inside the list returned.
    An alternatives node does not use that name: it passes its own type
    name, and the type synthesized on a cache miss has the node's
    name. *)
Theorem composite_name_joins_item_kinds :
  (forall i (its : list (JoiDesc World)) st,
      exists names st',
        compositeName i its st = Ok (join "Or" names) st' /\
        Forall2 (fun item nm =>
                   (exists n, nm = inputPrefix i +:+ n) /\
                   (withoutName item -> namedByKind i item nm))
                its names) /\
  (forall i (its : list (JoiDesc World)) st,
      (forall item, In item its -> withoutName item) ->
      compositeName i its st =
      Ok (join "Or" (fst (itemNamesFrom i (idCounter st) its)))
         (State (snd (itemNamesFrom i (idCounter st) its))
            (cachedTypes st) (heap st))) /\
  (forall d i st tn st1 cn st1',
      handlerOf (type d) = Some Karray ->
      1 < length (List.filter notForbidden (items d)) ->
      typeNameOf d i st = Ok tn st1 ->
      compositeName i (List.filter notForbidden (items d)) st1 = Ok cn st1' ->
      typeBeforeWrap d i st =
      (t <- makeArrayAlternativeType i cn d
              (List.filter notForbidden (items d)) ;;
       cacheIfAbsent cn t ;;; new (GraphQLList t)) st1') /\
  (forall d i st tn st1 cn st1' types st2 r st',
      handlerOf (type d) = Some Karray ->
      1 < length (List.filter notForbidden (items d)) ->
      typeNameOf d i st = Ok tn st1 ->
      compositeName i (List.filter notForbidden (items d)) st1 = Ok cn st1' ->
      inherited cn = false -> graphqlName cn = true ->
      mapM (fun item => descToType item i)
           (List.filter notForbidden (items d)) st1' = Ok types st2 ->
      cachedTypes st2 !! cn = None ->
      typeBeforeWrap d i st = Ok r st' ->
      exists u,
        nodeAt st' r = Some (GraphQLList u) /\
        typeNameAt st' u = Some cn /\
        nodeAt st2 u = None) /\
  (forall d i st tn st1,
      handlerOf (type d) = Some Kalternatives ->
      typeNameOf d i st = Ok tn st1 ->
      typeBeforeWrap d i st =
      (t <- makeArrayAlternativeType i tn d
              (List.filter notForbidden (alternatives d)) ;;
       cacheIfAbsent tn t ;;; ret t) st1) /\
  (forall d i st tn st1 types st2 r st',
      handlerOf (type d) = Some Kalternatives ->
      typeNameOf d i st = Ok tn st1 ->
      inherited tn = false -> graphqlName tn = true ->
      mapM (fun item => descToType item i)
           (List.filter notForbidden (alternatives d)) st1 = Ok types st2 ->
      cachedTypes st2 !! tn = None ->
      typeBeforeWrap d i st = Ok r st' ->
      typeNameAt st' r = Some tn /\ nodeAt st2 r = None).
Proof.
  split; [| split; [| split; [| split; [| split]]]].
  - intros i its st. do 2 eexists. split; [apply compositeName_spec |].
    eapply Forall2_impl; [apply itemNamesFrom_named |].
    intros item nm Hnm. split; [| auto]. revert Hnm. unfold namedByKind.
    destruct (String.eqb (capitalize (Some (type item))) "");
      [intros [id ->] | intros ->]; eauto.
  - intros i its st _. apply compositeName_spec.
  - intros d i st tn st1 cn st1'. apply array_several_run.
  - intros d i st tn st1 cn st1' types st2 r st' Hk Hlen Hn Hcn _ _ Hm Hnone.
    rewrite (array_several_run _ _ _ _ _ _ _ Hk Hlen Hn Hcn). intros Hrun.
    apply bind_inv_Ok in Hrun. destruct Hrun as (u & s3 & Hu & Hrun).
    destruct (synthesized_under_name _ _ _ _ _ _ _ _ _ Hm Hnone Hu)
      as (Hname & Hnew & _).
    unfold bind in Hrun. rewrite cacheIfAbsent_run in Hrun.
    unfold new in Hrun. cbn [heap] in Hrun. injection Hrun as <- <-.
    exists u. cbn [nodeAt heap]. split; [| split; [| exact Hnew]].
    + rewrite lookup_app_r by lia. now rewrite Nat.sub_diag.
    + eapply typeNameAt_prefix; [| exact Hname]. cbn [heap].
      now apply prefix_app_r.
  - intros d i st tn st1 Hk Hn.
    rewrite (typeBeforeWrap_eq _ _ _ _ _ Hn), (dispatch_kind _ _ _ _ _ Hk).
    apply alternatives_handler.
  - intros d i st tn st1 types st2 r st' Hk Hn _ _ Hm Hnone.
    rewrite (typeBeforeWrap_eq _ _ _ _ _ Hn), (dispatch_kind _ _ _ _ _ Hk).
    rewrite alternatives_handler. intros Hrun.
    apply bind_inv_Ok in Hrun. destruct Hrun as (u & s3 & Hu & Hrun).
    destruct (synthesized_under_name _ _ _ _ _ _ _ _ _ Hm Hnone Hu)
      as (Hname & Hnew & _).
    unfold bind in Hrun. rewrite cacheIfAbsent_run in Hrun.
    cbn [ret] in Hrun. injection Hrun as <- <-.
    split; [| exact Hnew].
    eapply typeNameAt_prefix; [| exact Hname]. reflexivity.
Qed.

End Properties.



(** * The properties on concrete descriptions *)

(** ** C2 *)

Lemma required_wraps_witness :
  (exists r st',
      descToType requiredFilm true st0 = Ok r st' /\
      nodeAt stInputFilm r = None /\
      nodeAt st' r = Some (GraphQLNonNull (Ref 0)) /\
      heap st' = heap stInputFilm ++ [GraphQLNonNull (Ref 0)] /\
      cachedTypes st' = cachedTypes stInputFilm /\
      idCounter st' = idCounter stInputFilm) /\
  (exists r st',
      descToType requiredFilm false st0 = Ok r st' /\
      r = Ref 0 /\ st' = stFilm).
Proof.
  split.
  - apply (required_wraps_exactly_in_input_position
             requiredFilm true st0 (Ref 0) stInputFilm);
      [reflexivity | reflexivity | intros _; reflexivity].
  - apply (required_wraps_exactly_in_input_position
             requiredFilm false st0 (Ref 0) stFilm);
      [reflexivity | reflexivity | discriminate].
Defined.

Example required_string_in_both_positions :
  nodeAt (stateOf (descToType (required_ (scalar "string")) true st0))
         (Ref 0) = Some (GraphQLNonNull GraphQLString) /\
  resultOf (descToType (required_ (scalar "string")) true st0) =
    Some (Ref 0) /\
  resultOf (descToType (required_ (scalar "string")) false st0) =
    Some GraphQLString.
Proof. repeat split. Qed.

(** The handler of a required object can return a non-null type: the
    type of the required item of an array cached under the object's
    name. *)
Example non_null_type_under_a_cached_name :
  let st1 := stateOf (descToType requiredTags true st0) in
  cachedTypes st1 !! "InputTags" = Some (Ref 0) /\
  typeBeforeWrap requiredTagsObject true st1 = Ok (Ref 0) st1 /\
  isNonNull st1 (Ref 0) = true.
Proof. repeat split. Qed.

(** ** C9 *)

(** [Joi.any()] has kind ["any"]: its translation throws the TypeError of
    the dispatch, not a failure that names the kind. *)
Lemma unsupported_kind_counterexample :
  handlerOf (type (scalar "any")) = None /\
  inherited (type (scalar "any")) = false /\
  descToType (scalar "any") false st0 =
    Throw (TypeError "is not a function") (State 1 ∅ []) /\
  isGenericInvocationError (TypeError "is not a function") = true.
Proof. repeat split. Qed.

Lemma unsupported_kind_witness :
  handlerOf (type (scalar "any")) = None /\
  inherited (type (scalar "any")) = false /\
  (exists st1,
      descToType (scalar "any") true st0 =
      Throw (TypeError "is not a function") st1) /\
  (exists e st',
      joiql (Jois (Some [("hello", scalar "string"); ("blob", scalar "any")])
                  None) st0 = Throw e st' /\
      isGenericInvocationError e = true).
Proof.
  split; [reflexivity |]. split; [reflexivity |].
  destruct (unsupported_kind_is_a_TypeError (scalar "any") eq_refl eq_refl)
    as [Hthrows Hbuild].
  split; [apply Hthrows |].
  apply (Hbuild _ [("hello", scalar "string"); ("blob", scalar "any")] "blob").
  - left. reflexivity.
  - right. left. reflexivity.
  - reflexivity.
Defined.

(** ** C4 *)

Lemma validatedResolve_witness :
  validatedResolve validateId hello VNull (VObj []) VNull VNull 0 =
    Ok (VObj []) 1 /\
  validatedResolve validateId hello VNull (VObj [("id", VStr "x")])
                   VNull VNull 0 =
    Throw (ValidationError "must be a number") 0 /\
  validatedResolve validateId hello VNull (VObj [("id", VStr "1")])
                   VNull VNull 0 =
    Ok (VObj [("id", VNum 1)]) 1.
Proof.
  split; [| split].
  - apply (proj1 (validatedResolve_validates_nonempty_args
                    validateId hello VNull (VObj []) VNull VNull 0)
             eq_refl echoArgs eq_refl).
  - apply (proj1 (proj2 (validatedResolve_validates_nonempty_args
                    validateId hello VNull (VObj [("id", VStr "x")])
                    VNull VNull 0))
             eq_refl eq_refl (ValidationError "must be a number") eq_refl).
  - apply (proj2 (proj2 (validatedResolve_validates_nonempty_args
                    validateId hello VNull (VObj [("id", VStr "1")])
                    VNull VNull 0))
             eq_refl eq_refl eq_refl echoArgs eq_refl).
Defined.

(** ** C6 *)

Lemma resolveType_counterexample :
  (* an earlier candidate matching by keys is returned, not the later one
     whose predicate accepts the value *)
  (let o := unionOf [byKeys; byPredicate] in
   let val := VObj [("a", VNum 1); ("b", VNum 2)] in
   resultOf o = Some (Ref 2) /\
   typeNameAt (stateOf o) (Ref 0) = Some "ByKeys" /\
   typeNameAt (stateOf o) (Ref 1) = Some "ByPredicate" /\
   firstMeta isTypeOf byPredicate = Some alwaysOfType /\
   truthy (alwaysOfType val) = true /\
   resolveTypeAt (stateOf o) (Ref 2) val = Some (Ref 0) /\
   resolveTypeAt (stateOf o) (Ref 2) val <> Some (Ref 1)) /\
  (* the same keys in another order do not match *)
  (let o := unionOf [byKeys] in
   let val := VObj [("b", VNum 2); ("a", VNum 1)] in
   (forall k, In k (keys val) <-> In k (map fst (children byKeys))) /\
   resultOf o = Some (Ref 1) /\
   resolveTypeAt (stateOf o) (Ref 1) val = None) /\
  (* a predicate in the second annotation is not consulted *)
  (let o := unionOf [predicateSecond] in
   let val := VObj [("z", VNum 0)] in
   (exists m1 m2, meta predicateSecond = [m1; m2] /\
                  isTypeOf m2 = Some alwaysOfType) /\
   truthy (alwaysOfType val) = true /\
   resultOf o = Some (Ref 1) /\
   resolveTypeAt (stateOf o) (Ref 1) val = None).
Proof.
  split; [| split].
  - repeat split. discriminate.
  - split; [| split; reflexivity]. intros k. cbn. tauto.
  - split; [| repeat split]. do 2 eexists. split; reflexivity.
Qed.

Lemma resolveType_witness :
  resolveType [byKeys; byPredicate] [Ref 0; Ref 1] (VObj [("z", VNum 0)]) =
    Some (Ref 1) /\
  resolveType [byKeys] [Ref 0] (VObj [("z", VNum 0)]) = None /\
  (matchesCandidate byKeys (VObj [("a", VNum 1); ("b", VNum 2)]) = true <->
   (exists p, firstMeta isTypeOf byKeys = Some p /\
              truthy (p (VObj [("a", VNum 1); ("b", VNum 2)])) = true) \/
   (firstMeta isTypeOf byKeys = None /\
    keys (VObj [("a", VNum 1); ("b", VNum 2)]) = map fst (children byKeys))).
Proof.
  split; [| split].
  - apply (proj1 (resolveType_returns_first_match
                    [byKeys; byPredicate] [Ref 0; Ref 1]
                    (VObj [("z", VNum 0)])) 1 byPredicate (Ref 1));
      try reflexivity.
    intros j item' Hj Hitem. destruct j as [| j]; [| lia].
    injection Hitem as <-. reflexivity.
  - apply (proj1 (proj2 (resolveType_returns_first_match
                           [byKeys] [Ref 0] (VObj [("z", VNum 0)])))).
    intros item [<- | []]. reflexivity.
  - apply (proj2 (proj2 (resolveType_returns_first_match
                           [byKeys] [Ref 0]
                           (VObj [("a", VNum 1); ("b", VNum 2)])))).
Defined.

(** ** C7 *)

Lemma single_item_array_witness :
  (exists stl,
      typeBeforeWrap requiredStrings true st0 = Ok (Ref 0) stl /\
      nodeAt stl (Ref 0) = Some (GraphQLList GraphQLString) /\
      heap stl = [GraphQLList GraphQLString]) /\
  (exists st',
      descToType requiredStrings true st0 = Ok (Ref 1) st' /\
      heap st' = [GraphQLList GraphQLString; GraphQLNonNull (Ref 0)]) /\
  (exists st',
      descToType (array [forbidden_ (scalar "number"); film]) false st0 =
        Ok (Ref 1) st' /\
      heap st' =
        [GraphQLObjectType "Film" None
           [("title", Field GraphQLString None "" (scalar "string"))];
         GraphQLList (Ref 0)]).
Proof.
  destruct (single_item_array_is_list_of_item
              requiredStrings true (scalar "string") st0
              "InputAnon1" (State 1 ∅ []) GraphQLString (State 2 ∅ [])
              eq_refl eq_refl eq_refl eq_refl) as [Hhandler Hresult].
  split; [exact Hhandler |]. split; [exact Hresult |].
  pose proof (proj2 (single_item_array_is_list_of_item
                  (array [forbidden_ (scalar "number"); film]) false film st0
                  "Anon1" (State 1 ∅ []) (Ref 0)
                  (stateOf (descToType film false (State 1 ∅ [])))
                  eq_refl eq_refl eq_refl eq_refl)) as Hrun.
  vm_compute in Hrun. vm_compute. exact Hrun.
Defined.

(** [Joi.array()] has no [items]: line 84 throws, in either position. *)
Example array_without_items :
  descToType (array []) false st0 =
    Throw (TypeError "cannot read property of undefined") (State 1 ∅ []) /\
  descToType (array []) true st0 =
    Throw (TypeError "cannot read property of undefined") (State 1 ∅ []).
Proof. split; reflexivity. Qed.

(** A required array in input position: the list inside the non-null
    node of line 110. *)
Example required_array_in_input_position :
  let o := descToType requiredStrings true st0 in
  resultOf o = Some (Ref 1) /\
  nodeAt (stateOf o) (Ref 1) = Some (GraphQLNonNull (Ref 0)) /\
  nodeAt (stateOf o) (Ref 0) = Some (GraphQLList GraphQLString).
Proof. repeat split. Qed.

(** ** C10 *)

(** A later scalar or array description that computes the name is not
    given the item's type, and an object translation in progress around
    the array replaces the entry when it finishes. *)
Lemma single_item_array_caches_counterexample :
  (let st1 := stateOf (descToType tags false st0) in
   cachedTypes st1 !! "Tags" = Some GraphQLString /\
   typeNameOf tagsNumber false st1 = Ok "Tags" st1 /\
   resultOf (descToType tagsNumber false st1) = Some GraphQLFloat /\
   resultOf (descToType tagsNumber false st1) <> cachedTypes st1 !! "Tags" /\
   typeNameOf tagsNumbers false st1 = Ok "Tags" st1 /\
   resultOf (descToType tagsNumbers false st1) = Some (Ref 1) /\
   resultOf (descToType tagsNumbers false st1) <>
     cachedTypes st1 !! "Tags") /\
  (let o := descToType tagsInTags false st0 in
   resultOf (descToType tags false st0) = Some (Ref 0) /\
   cachedTypes (stateOf (descToType tags false st0)) !! "Tags" =
     Some GraphQLString /\
   resultOf o = Some (Ref 1) /\
   nodeAt (stateOf o) (Ref 0) = Some (GraphQLList GraphQLString) /\
   cachedTypes (stateOf o) !! "Tags" = Some (Ref 1) /\
   typeNameOf tagsObject false (stateOf o) = Ok "Tags" (stateOf o) /\
   resultOf (descToType tagsObject false (stateOf o)) = Some (Ref 1) /\
   resultOf (descToType tagsObject false (stateOf o)) <>
     Some GraphQLString).
Proof. split; repeat split; discriminate. Qed.

Lemma single_item_array_caches_witness :
  exists r st',
    descToType tags false st0 = Ok r st' /\
    cachedTypes st' = <["Tags" := GraphQLString]> ∅ /\
    cachedTypes st' !! "Tags" = Some GraphQLString /\
    cachedTypes (stateOf (descToType film true st')) !! "Tags" =
      Some GraphQLString /\
    typeBeforeWrap tagsObject false st' = Ok GraphQLString st' /\
    makeArrayAlternativeType false "Tags" (alternativesOf [])
      [scalar "string"] st' = Ok GraphQLString (State 2 (cachedTypes st')
                                                   (heap st')).
Proof.
  destruct (single_item_array_caches_item_type
              tags false (scalar "string") st0
              "Tags" st0 GraphQLString (State 1 ∅ [])
              eq_refl eq_refl eq_refl eq_refl eq_refl)
    as (r & st' & Hrun & Hcache & Hstored & Hkeeps & Hobject & Hsynth).
  pose proof (Hstored eq_refl) as Hc.
  exists r, st'. split; [exact Hrun |]. split; [exact Hcache |].
  split; [exact Hc |]. split; [apply (Hkeeps st' film true Hc) |].
  split.
  - apply (Hobject st' tagsObject false st' Hc); [reflexivity |].
    apply (typeNameOf_named tagsObject false st' "Tags");
      [reflexivity | discriminate].
  - apply (Hsynth st' false (alternativesOf []) [scalar "string"]
             [GraphQLString] _ Hc).
    injection Hrun as _ <-. reflexivity.
Defined.

Example tags_then_object_of_the_same_name :
  resultOf (descToType tagsObject false
              (stateOf (descToType tags false st0))) = Some GraphQLString.
Proof. reflexivity. Qed.

(** ** C1 *)

Lemma cached_name_counterexample :
  (* a required object in input position, translated twice: its name is
     cached after the first translation, and each translation returns a
     node of its own, neither of them the cached one *)
  (let o1 := descToType requiredFilm true st0 in
   let o2 := descToType requiredFilm true (stateOf o1) in
   typeNameOf requiredFilm true (stateOf o1) = Ok "InputFilm" (stateOf o1) /\
   cachedTypes (stateOf o1) !! "InputFilm" = Some (Ref 0) /\
   resultOf o1 = Some (Ref 1) /\ resultOf o2 = Some (Ref 2) /\
   resultOf o2 <> cachedTypes (stateOf o1) !! "InputFilm" /\
   resultOf o2 <> resultOf o1) /\
  (* a string description that computes a cached name is not given the
     cached node *)
  (let o1 := descToType film false st0 in
   let o2 := descToType (named "Film" (scalar "string")) false (stateOf o1) in
   typeNameOf (named "Film" (scalar "string")) false (stateOf o1) =
     Ok "Film" (stateOf o1) /\
   cachedTypes (stateOf o1) !! "Film" = Some (Ref 0) /\
   resultOf o2 = Some GraphQLString /\
   resultOf o2 <> cachedTypes (stateOf o1) !! "Film").
Proof. split; repeat split; discriminate. Qed.

(** The object handler stores without the test that lines 98 and 106
    make: a translation that found its name absent when it started
    replaces the entry a child of the same name has made meanwhile. *)
Example nested_objects_of_one_name :
  let o := descToType nestedNode false st0 in
  resultOf o = Some (Ref 1) /\
  typeNameAt (stateOf o) (Ref 0) = Some "Node" /\
  typeNameAt (stateOf o) (Ref 1) = Some "Node" /\
  nodeAt (stateOf o) (Ref 1) =
    Some (GraphQLObjectType "Node" None
            [("inner", Field (Ref 0) None ""
                         (named "Node" (object [("a", scalar "string")])))]) /\
  cachedTypes (stateOf o) !! "Node" = Some (Ref 1).
Proof. repeat split. Qed.

Lemma cached_name_witness :
  (match descToType person true stFilm with
   | Ok _ st' | Throw _ st' =>
       cachedTypes st' !! "Film" = Some (Ref 0) /\
       heap st' !! 0 =
         Some (GraphQLObjectType "Film" None
                 [("title", Field GraphQLString None "" (scalar "string"))])
   end) /\
  (typeBeforeWrap filmWithYear false stFilm = Ok (Ref 0) stFilm /\
   cachedTypes stFilm = cachedTypes stFilm /\ heap stFilm = heap stFilm /\
   descToType filmWithYear false stFilm =
     wrapRequired filmWithYear false (Ref 0) stFilm) /\
  (makeArrayAlternativeType false "Film" (alternativesOf [])
     [scalar "string"; person] stFilm =
   Ok (Ref 0)
      (stateOf (mapM (fun item => descToType item false)
                     [scalar "string"; person] stFilm))) /\
  (descToType filmWithYear false stFilm = Ok (Ref 0) stFilm) /\
  (exists t,
      typeBeforeWrap (named "Film" (scalar "string")) false stFilm =
        Ok t stFilm /\
      forall loc, t <> Ref loc).
Proof.
  destruct (@cached_name_resolves_to_cached_node nat)
    as (Hkeeps & Hobject & Hsynth & Htwice & Hscalar).
  split; [| split; [| split; [| split]]].
  - apply (Hkeeps person true stFilm "Film" (Ref 0) 0); reflexivity.
  - apply (Hobject filmWithYear false stFilm "Film" stFilm (Ref 0));
      reflexivity.
  - apply (Hsynth false "Film" (alternativesOf [])
             [scalar "string"; person] stFilm (Ref 0)
             [GraphQLString; Ref 1]); reflexivity.
  - apply (Htwice film filmWithYear false "Film" st0 (Ref 0) stFilm);
      try reflexivity.
    discriminate.
  - apply (Hscalar (named "Film" (scalar "string")) false stFilm
             "Film" stFilm Kstring); [reflexivity | | reflexivity].
    right. right. left. reflexivity.
Defined.

(** ** C3 *)

Lemma forbidden_entries_witness :
  (map fst [("login", Field GraphQLString None "" (scalar "string"));
            ("active", Field GraphQLBoolean None "" (scalar "boolean"))] =
   map fst (List.filter (fun kv => notForbidden (snd kv)) account)) /\
  (map fst [("login", @InputField nat GraphQLString);
            ("active", @InputField nat GraphQLBoolean)] =
   map fst (List.filter (fun kv => notForbidden (snd kv)) account)) /\
  (exists argsSchema,
      firstMeta args search = Some argsSchema /\
      map fst [("term", GraphQLString)] =
      map fst (List.filter (fun kv => notForbidden (snd kv)) argsSchema)) /\
  (exists st',
      descToType (named "FilmOrPerson" (alternativesOf filmOrPerson))
                 false st0 = Ok (Ref 2) st' /\
      heap st' !! 2 =
        Some (GraphQLUnionType "FilmOrPerson" None [Ref 0; Ref 1]
                [film; person]) /\
      length [Ref 0; Ref 1] = length [film; person]) /\
  (exists st',
      descToType (array filmOrPerson) false st0 = Ok (Ref 3) st' /\
      heap st' !! 3 = Some (GraphQLList (Ref 2)) /\
      heap st' !! 2 =
        Some (GraphQLUnionType "ObjectOrObject" None [Ref 0; Ref 1]
                [film; person]) /\
      length [Ref 0; Ref 1] = length [film; person]) /\
  (descToType (withoutForbidden (array filmOrPerson)) true st0 =
   descToType (array filmOrPerson) true st0).
Proof.
  destruct (@forbidden_entries_are_left_out nat)
    as (Hfields & Hinput & Hargs & Halts & Hitems & Herase).
  split; [| split; [| split; [| split; [| split]]]].
  - apply (Hfields account st0 _ (State 2 ∅ [])). reflexivity.
  - apply (Hinput account st0 _ (State 2 ∅ [])). reflexivity.
  - apply (Hargs search st0 _ (State 1 ∅ [])). reflexivity.
  - pose proof (Halts (named "FilmOrPerson" (alternativesOf filmOrPerson))
                  st0 "FilmOrPerson" st0 [Ref 0; Ref 1]
                  (stateOf (mapM (fun item => descToType item false)
                                 [film; person] st0))
                  eq_refl) as Hrun.
    vm_compute in Hrun. vm_compute.
    apply Hrun; [discriminate | reflexivity ..].
  - pose proof (Hitems (array filmOrPerson) st0 "Anon1" (State 1 ∅ [])
                  "ObjectOrObject" (State 1 ∅ []) [Ref 0; Ref 1]
                  (stateOf (mapM (fun item => descToType item false)
                                 [film; person] (State 1 ∅ [])))
                  eq_refl) as Hrun.
    vm_compute in Hrun. vm_compute.
    apply Hrun; [lia | reflexivity ..].
  - apply Herase. intros _ _. discriminate.
Defined.

(** ** C5 *)

(** An alternatives node without name metadata: its union takes the
    anonymous name of the node, not the "Or"-joined names of the
    branches. *)
Lemma composite_name_counterexample :
  let o := descToType (alternativesOf stringOrNumber) false st0 in
  List.filter notForbidden (alternatives (alternativesOf stringOrNumber)) =
    stringOrNumber /\
  resultOf o = Some (Ref 0) /\
  typeNameAt (stateOf o) (Ref 0) = Some "Anon1" /\
  join "Or" (map (fun d => capitalize (Some (type d))) stringOrNumber) =
    "StringOrNumber" /\
  typeNameAt (stateOf o) (Ref 0) <>
    Some (join "Or" (map (fun d => capitalize (Some (type d)))
                         stringOrNumber)).
Proof. repeat split. discriminate. Qed.

(** The items of an array that carry name metadata are named by their
    kind all the same. *)
Example array_of_named_items :
  let o := descToType (array [film; person]) false st0 in
  resultOf o = Some (Ref 3) /\
  typeNameAt (stateOf o) (Ref 2) = Some "ObjectOrObject".
Proof. repeat split. Qed.

Lemma composite_name_witness :
  (exists names st',
      compositeName true [film; scalar "number"] st0 =
        Ok (join "Or" names) st' /\
      Forall2 (fun item nm =>
                 (exists n, nm = inputPrefix true +:+ n) /\
                 (withoutName item -> namedByKind true item nm))
              [film; scalar "number"] names) /\
  compositeName true stringOrNumber st0 =
    Ok "InputStringOrInputNumber" st0 /\
  typeBeforeWrap (array stringOrNumber) false st0 =
    (t <- makeArrayAlternativeType false "StringOrNumber"
            (array stringOrNumber) stringOrNumber ;;
     cacheIfAbsent "StringOrNumber" t ;;; new (GraphQLList t))
      (State 1 ∅ []) /\
  (exists u,
      nodeAt (stateOf (typeBeforeWrap (array stringOrNumber) true st0))
             (Ref 1) = Some (GraphQLList u) /\
      typeNameAt (stateOf (typeBeforeWrap (array stringOrNumber) true st0)) u =
        Some "InputStringOrInputNumber" /\
      nodeAt (State 3 ∅ [] : state nat) u = None) /\
  typeBeforeWrap (alternativesOf stringOrNumber) true st0 =
    (t <- makeArrayAlternativeType true "InputAnon1"
            (alternativesOf stringOrNumber) stringOrNumber ;;
     cacheIfAbsent "InputAnon1" t ;;; ret t) (State 1 ∅ []) /\
  (typeNameAt (stateOf (typeBeforeWrap (alternativesOf stringOrNumber)
                          false st0)) (Ref 0) = Some "Anon1" /\
   nodeAt (State 3 ∅ [] : state nat) (Ref 0) = None).
Proof.
  destruct (@composite_name_joins_item_kinds nat)
    as (Hnames & Hexact & Harray & Hlist & Halts & Hunion).
  assert (Hunnamed : forall item, In item stringOrNumber -> withoutName item).
  { intros item [<- | [<- | []]] m []. }
  split; [apply Hnames |]. split; [apply (Hexact true _ st0 Hunnamed) |].
  split; [| split; [| split]].
  - apply (Harray (array stringOrNumber) false st0 "Anon1" (State 1 ∅ [])
             "StringOrNumber" (State 1 ∅ []));
      [reflexivity | cbn; lia | reflexivity | reflexivity].
  - apply (Hlist (array stringOrNumber) true st0 "InputAnon1" (State 1 ∅ [])
             "InputStringOrInputNumber" (State 1 ∅ [])
             [GraphQLString; GraphQLFloat] (State 3 ∅ []) (Ref 1));
      [reflexivity | cbn; lia | reflexivity ..].
  - apply (Halts (alternativesOf stringOrNumber) true st0
             "InputAnon1" (State 1 ∅ [])); reflexivity.
  - apply (Hunion (alternativesOf stringOrNumber) false st0
             "Anon1" (State 1 ∅ []) [GraphQLString; GraphQLFloat]
             (State 3 ∅ []) (Ref 0)); reflexivity.
Defined.

(** ** C8 *)

(** The name is absent when the synthesis starts and is cached by a
    nested array while the candidates are translated: the result is the
    type of the nested array, with its fields, not the merge. *)
Lemma input_synthesis_counterexample :
  let o := descToType (array [candA; candB]) true st0 in
  compositeName true [candA; candB] st0 =
    Ok "InputObjectOrInputObject" st0 /\
  compositeName true [candC; candD] st0 =
    Ok "InputObjectOrInputObject" st0 /\
  cachedTypes st0 !! "InputObjectOrInputObject" = None /\
  map fst (assign (flatten (map children [candA; candB]))) = ["x"; "y"] /\
  resultOf o = Some (Ref 6) /\
  nodeAt (stateOf o) (Ref 6) = Some (GraphQLList (Ref 2)) /\
  nodeAt (stateOf o) (Ref 3) = Some (GraphQLList (Ref 2)) /\
  nodeAt (stateOf o) (Ref 2) =
    Some (GraphQLInputObjectType "InputObjectOrInputObject" None
            [("c", Field GraphQLString None "" (scalar "string"));
             ("d", Field GraphQLString None "" (scalar "string"))]) /\
  ["c"; "d"] <> map fst (assign (flatten (map children [candA; candB]))).
Proof.
  split; [reflexivity |]. split; [reflexivity |]. split; [reflexivity |].
  split; [reflexivity |]. split; [reflexivity |]. split; [reflexivity |].
  split; [reflexivity |]. split; [reflexivity | discriminate].
Qed.

Lemma input_synthesis_witness :
  (exists fields,
      nodeAt (stateOf (makeArrayAlternativeType true
                         "InputObjectOrInputObject"
                         (array [left_; right_]) [left_; right_] st0))
             (Ref 2) =
        Some (GraphQLInputObjectType "InputObjectOrInputObject" None fields) /\
      nodeAt stCandidates (Ref 2) = None /\
      Forall2 (fun kc kf =>
                 fst kf = fst kc /\
                 exists t a, snd kf = fieldFor (snd kc) t a)
              (List.filter (fun kc => notForbidden (snd kc))
                 (assign (flatten (map children [left_; right_]))))
              fields) /\
  assoc "b" (assign (flatten (map children [left_; right_]))) =
    Some (scalar "boolean") /\
  assoc "z" (assign (flatten (map children [left_; right_]))) = None.
Proof.
  destruct (input_synthesis_merges_children
              "InputObjectOrInputObject" (array [left_; right_])
              [left_; right_] st0 [Ref 0; Ref 1] stCandidates (Ref 2)
              (stateOf (makeArrayAlternativeType true
                          "InputObjectOrInputObject"
                          (array [left_; right_]) [left_; right_] st0)))
    as (Hnode & Hlast & Habsent);
    [reflexivity | reflexivity | reflexivity | reflexivity | | reflexivity |].
  { intros item k [<- | [<- | []]] Hin; cbn in Hin;
      destruct Hin as [<- | [<- | []]]; reflexivity. }
  split; [exact Hnode |]. split.
  - apply (Hlast [left_] right_ [] "b" (scalar "boolean"));
      [reflexivity | reflexivity | | intros item' []].
    apply (bool_decide_unpack _). vm_compute. exact I.
  - apply Habsent. intros item [<- | [<- | []]]; reflexivity.
Defined.

Example merged_fields_of_two_candidates :
  nodeAt (stateOf (makeArrayAlternativeType true "InputObjectOrInputObject"
                     (array [left_; right_]) [left_; right_] st0))
         (Ref 2) =
    Some (GraphQLInputObjectType "InputObjectOrInputObject" None
            mergedFields).
Proof. reflexivity. Qed.


(** * Further properties of the translator, the resolvers and the build *)

Section Further.

Context {World : Type}.

Implicit Types (d desc item : JoiDesc World) (st : state World).
Implicit Types (self : JoiDesc World -> bool -> M (state World) tyref).

(** ** Anonymous names *)

Lemma string_of_nat_inj n m : string_of_nat n = string_of_nat m -> n = m.
Proof.
  unfold string_of_nat. intros Heq. apply Unsigned.to_uint_inj.
  pose proof (NilEmpty.usu (Nat.to_uint n)) as Hn.
  rewrite Heq, NilEmpty.usu in Hn. now injection Hn.
Qed.

Lemma typeNameOf_unnamed d i st :
  unnamed d = true ->
  typeNameOf d i st =
  Ok (inputPrefix i +:+ "Anon" +:+ string_of_nat (S (idCounter st)))
     (State (S (idCounter st)) (cachedTypes st) (heap st)).
Proof.
  unfold unnamed, typeNameOf, orAnon. intros Hu.
  destruct (firstMeta name d) as [n |]; [rewrite Hu |]; reflexivity.
Qed.

(** X3.  A description whose first annotation gives no name (or the
    empty name) takes the next counter value for its name, also when its
    kind is a scalar and the name is never used.  Two such descriptions
    never compute the same name, in whatever positions, as long as the
    counter has not been moved back in between; a description with a
    non-empty name leaves the counter alone. *)
Theorem anonymous_names_are_fresh d1 i1 d2 i2 st st2 :
  unnamed d1 = true -> unnamed d2 = true ->
  idCounter (stateOf (typeNameOf d1 i1 st)) <= idCounter st2 ->
  idCounter (stateOf (typeNameOf d1 i1 st)) = S (idCounter st) /\
  resultOf (typeNameOf d1 i1 st) <> resultOf (typeNameOf d2 i2 st2) /\
  (forall d i n, firstMeta name d = Some n -> n <> "" ->
                 typeNameOf d i st = Ok (inputPrefix i +:+ n) st).
Proof.
  intros Hu1 Hu2. rewrite (typeNameOf_unnamed d1 i1 st Hu1).
  rewrite (typeNameOf_unnamed d2 i2 st2 Hu2). cbn [stateOf resultOf idCounter].
  intros Hle. split; [reflexivity |]. split.
  - intros [= Heq].
    assert (Hs : string_of_nat (S (idCounter st)) =
                 string_of_nat (S (idCounter st2))).
    { destruct i1, i2; cbv -[string_of_nat idCounter] in Heq; congruence. }
    apply string_of_nat_inj in Hs. lia.
  - intros d i n Hn Hne. now apply typeNameOf_named.
Qed.

(** ** Scalar kinds *)

(** X4.  Outside the required-in-input case, a boolean description
    translates to the Boolean scalar, a date or string description to the
    String scalar, and a number description to the Int scalar when one of
    its rules is named "integer" and to the Float scalar otherwise.  No
    object is created and the cache is neither read nor written; the
    counter advances by one exactly when the description is unnamed. *)
Theorem scalar_kinds_translate_to_scalars d i st :
  i && presence d "required" = false ->
  let st1 := stateOf (typeNameOf d i st) in
  (type d = "boolean" -> descToType d i st = Ok GraphQLBoolean st1) /\
  (type d = "date" \/ type d = "string" ->
   descToType d i st = Ok GraphQLString st1) /\
  (type d = "number" ->
   descToType d i st =
   Ok (if existsb (fun r => String.eqb (rname r) "integer") (rules d)
       then GraphQLInt else GraphQLFloat) st1) /\
  cachedTypes st1 = cachedTypes st /\ heap st1 = heap st /\
  idCounter st1 = if unnamed d then S (idCounter st) else idCounter st.
Proof.
  intros Hreq st1.
  destruct (typeNameOf_total d i st) as (tn & s1 & Hn).
  assert (Hst1 : st1 = s1) by (unfold st1; now rewrite Hn).
  assert (Hrun : forall k t,
             handlerOf (type d) = Some k ->
             handlers d i tn k s1 = Ok t s1 ->
             descToType d i st = Ok t st1).
  { intros k t Hk Hh. rewrite descToType_eq.
    rewrite (bind_Ok _ _ _ _ _ (eq_trans
               (typeBeforeWrap_eq _ _ _ _ _ Hn)
               (eq_trans (dispatch_kind _ _ _ _ _ Hk) Hh))).
    unfold wrapRequired. rewrite Hreq, Hst1. reflexivity. }
  split; [| split; [| split]].
  - intros Ht. apply (Hrun Kboolean); [now rewrite Ht | reflexivity].
  - intros [Ht | Ht].
    + apply (Hrun Kdate); [now rewrite Ht | reflexivity].
    + apply (Hrun Kstring); [now rewrite Ht | reflexivity].
  - intros Ht. apply (Hrun Knumber); [now rewrite Ht | reflexivity].
  - destruct (typeNameOf_state _ _ _ _ _ Hn) as [Hc Hh]. rewrite Hst1.
    split; [exact Hc | split; [exact Hh |]].
    revert Hn. unfold typeNameOf, orAnon, unnamed, bind, ret, uniqueId.
    destruct (firstMeta name d) as [n |]; [destruct (String.eqb n "") |];
      intros [= <- <-]; reflexivity.
Qed.


(** ** A field without a resolve function *)

(** X5.  The resolver of a field whose first annotation carries no
    resolve function.  Called with non-empty arguments, for a field that
    has an argument schema, it always throws: the validation error when
    validation fails and otherwise the TypeError of calling the missing
    function.  Called with no or empty arguments it returns a falsy
    source as it is, and for an object source the own property named by
    the first field node of the execution info ([undefined] when the
    source has none); it throws a TypeError when the source is truthy
    and the info has no field nodes.  The user's world is never
    changed. *)
Theorem resolver_without_resolve_function
    (Joi_validate : value -> option (list (string * JoiDesc World)) -> validation)
    desc (source args_ root opts : value) (w : World) :
  firstMeta resolve desc = None ->
  (truthy args_ && negb (isEmpty args_) = true ->
   firstMeta args desc <> None ->
   exists e,
     validatedResolve Joi_validate desc source args_ root opts w = Throw e w /\
     match verror (Joi_validate args_ (firstMeta args desc)) with
     | Some error => e = error
     | None => isGenericInvocationError e = true
     end) /\
  (truthy args_ && negb (isEmpty args_) = false ->
   (truthy source = false ->
    validatedResolve Joi_validate desc source args_ root opts w =
    Ok source w) /\
   (forall props f,
       source = VObj props -> opts = infoFor f -> inherited f = false ->
       validatedResolve Joi_validate desc source args_ root opts w =
       Ok (default VUndefined (assoc f props)) w) /\
   (truthy source = true ->
    getProp opts "fieldASTs" = None \/
    getProp opts "fieldASTs" = Some VUndefined ->
    exists e,
      validatedResolve Joi_validate desc source args_ root opts w =
      Throw e w /\
      isGenericInvocationError e = true)).
Proof.
  intros Hres. unfold validatedResolve. rewrite Hres. split; intros Hc;
    rewrite Hc.
  - intros _. destruct (verror (Joi_validate args_ (firstMeta args desc)));
      eexists; split; reflexivity.
  - split; [| split].
    + intros Hs. rewrite Hs. reflexivity.
    + intros props f -> -> _. reflexivity.
    + intros Hs Hopts. rewrite Hs.
      destruct Hopts as [Ho | Ho]; rewrite Ho; eexists; split; reflexivity.
Qed.

(** ** Field configurations *)

Lemma mapValuesM_kept {A B} (drop : A -> bool) (g : A -> M (state World) B)
    (f : A -> M (state World) (option B)) :
  (forall a s, f a s = if drop a then Ok None s
                       else (b <- g a ;; ret (Some b)) s) ->
  (forall a, frames (g a)) ->
  forall l st bs st',
  mapValuesM f l st = Ok bs st' ->
  extends st st' /\
  Forall2 (fun ka kb =>
             fst kb = fst ka /\
             exists s1 s2, extends st s1 /\ g (snd ka) s1 = Ok (snd kb) s2 /\
                           extends s2 st')
          (List.filter (fun ka => negb (drop (snd ka))) l) (omitNull bs).
Proof.
  intros Hf Hg. induction l as [| [k a] l IH]; intros st bs st';
    cbn [mapValuesM].
  - intros [= <- <-]. split; [apply extends_refl | constructor].
  - intros Hrun. apply bind_inv_Ok in Hrun.
    destruct Hrun as (b & s1 & Hb & Hrun). apply bind_inv_Ok in Hrun.
    destruct Hrun as (bs' & s2 & Hrec & Hret). injection Hret as <- <-.
    destruct (IH _ _ _ Hrec) as [He HF]. rewrite Hf in Hb.
    cbn [List.filter snd]. destruct (drop a); cbn [negb].
    + injection Hb as <- <-. cbn [omitNull]. split; assumption.
    + unfold bind, ret in Hb. pose proof (Hg a st) as Hfr.
      destruct (g a st) as [b0 s0 |] eqn:Hrun; [| discriminate].
      injection Hb as <- <-. cbn [framed] in Hfr. cbn [omitNull].
      split; [eapply extends_trans; eassumption |]. constructor.
      * cbn [fst snd]. split; [reflexivity |]. exists st, s0.
        split; [apply extends_refl | split; assumption].
      * eapply Forall2_impl; [exact HF |].
        intros ka kb (Hk & sa & sb & H1 & H2 & H3). split; [exact Hk |].
        exists sa, sb. split; [eapply extends_trans; eassumption |].
        split; assumption.
Qed.

(** X6.  The fields [descsToFields] returns are, in order, one per
    non-forbidden entry, under the entry's name: the type is the
    translation of the entry's description in output position (so never
    a non-null wrapper of line 110), the arguments are those
    [descToArgs] gives for it right after, the description defaults to
    the empty string and the resolver closes over the description.
    [descToArgs] gives nothing, and changes nothing, when the first
    annotation has no argument schema; otherwise it gives one argument
    per non-forbidden entry of that schema, typed by the entry's
    translation in input position. *)
Theorem field_configurations_follow_their_descriptions st :
  (forall descs fs st',
      descsToFields descs st = Ok fs st' ->
      Forall2 (fun kd kf =>
                 fst kf = fst kd /\
                 exists t a s1 s2 s3,
                   extends st s1 /\
                   descToType (snd kd) false s1 = Ok t s2 /\
                   descToArgs (snd kd) s2 = Ok a s3 /\
                   extends s3 st' /\
                   snd kf = fieldFor (snd kd) t a)
              (List.filter (fun kd => notForbidden (snd kd)) descs) fs) /\
  (forall d a st',
      descToArgs d st = Ok a st' ->
      match firstMeta args d with
      | None => a = None /\ st' = st
      | Some argsSchema =>
          exists l,
            a = Some l /\
            Forall2 (fun ks kt =>
                       fst kt = fst ks /\
                       exists s1 s2,
                         extends st s1 /\
                         descToType (snd ks) true s1 = Ok (snd kt) s2 /\
                         extends s2 st')
                    (List.filter (fun ks => notForbidden (snd ks)) argsSchema)
                    l
      end).
Proof.
  split.
  - intros descs fs st'. unfold descsToFields, descsToFieldsF. intros Hrun.
    apply bind_inv_Ok in Hrun. destruct Hrun as (bs & s1 & Hmap & Hret).
    injection Hret as <- <-.
    pose proof (mapValuesM_kept
                  (fun d => presence d "forbidden")
                  (fun d => t <- descToType d false ;;
                            a <- descToArgs d ;;
                            ret (fieldFor d t a))
                  (fieldOfF descToType)) as Hkept.
    destruct (Hkept) with (l := descs) (st := st) (bs := bs) (st' := s1)
      as [_ HF]; [| | exact Hmap |].
    + intros d s. unfold fieldOfF. destruct (presence d "forbidden");
        [reflexivity |].
      unfold bind, ret, fieldFor, descToArgs.
      destruct (descToType d false s) as [t s2 |]; [| reflexivity].
      destruct (descToArgsF descToType d s2); reflexivity.
    + intros d. apply frames_bind; [apply frames_descToType |]. intros t.
      apply frames_bind; [| intros; apply frames_ret].
      apply frames_descToArgsF, frames_descToType.
    + eapply Forall2_impl; [exact HF |].
      intros kd kf (Hk & sa & sb & H1 & H2 & H3). split; [exact Hk |].
      apply bind_inv_Ok in H2. destruct H2 as (t & s2 & Ht & H2).
      apply bind_inv_Ok in H2. destruct H2 as (a & s3 & Ha & Hret).
      injection Hret as Hf <-. exists t, a, sa, s2, s3. auto.
  - intros d a st'. unfold descToArgs, descToArgsF.
    destruct (firstMeta args d) as [argsSchema |].
    + intros Hrun. apply bind_inv_Ok in Hrun.
      destruct Hrun as (bs & s1 & Hmap & Hret). injection Hret as <- <-.
      eexists. split; [reflexivity |].
      pose proof (mapValuesM_kept
                    (fun d => presence d "forbidden")
                    (fun d => descToType d true)
                    (fun schema =>
                       if presence schema "forbidden" then ret None
                       else t <- descToType schema true ;; ret (Some t)))
        as Hkept.
      destruct (Hkept) with (l := argsSchema) (st := st) (bs := bs)
                            (st' := s1) as [_ HF]; [| | exact Hmap |].
      * intros x s. destruct (presence x "forbidden"); reflexivity.
      * intros x. apply frames_descToType.
      * exact HF.
    + intros [= <- <-]. split; reflexivity.
Qed.

(** ** Forbidden entries are skipped, not translated *)

Lemma mapValuesM_skip {S A B} (drop : A -> bool) (f : A -> M S (option B)) :
  (forall a s, drop a = true -> f a s = Ok None s) ->
  forall l s,
  (bs <- mapValuesM f l ;; ret (omitNull bs)) s =
  (bs <- mapValuesM f (List.filter (fun ka => negb (drop (snd ka))) l) ;;
   ret (omitNull bs)) s.
Proof.
  intros Hf. induction l as [| [k a] l IH]; intros s; [reflexivity |].
  cbn [List.filter snd]. destruct (drop a) eqn:Hd; cbn [negb].
  - rewrite <- IH. cbn [mapValuesM]. unfold bind, ret. rewrite (Hf a s Hd).
    destruct (mapValuesM f l s); reflexivity.
  - cbn [mapValuesM]. unfold bind, ret in *.
    destruct (f a s) as [b s1 |]; [| reflexivity].
    specialize (IH s1).
    destruct (mapValuesM f l s1),
      (mapValuesM f (List.filter (fun ka => negb (drop (snd ka))) l) s1);
      destruct b; cbn [omitNull]; congruence.
Qed.

(** X7.  The fields of a hash of descriptions, and the fields of an
    input object, are those of the hash without its forbidden entries,
    with the same final state and the same error if any: a forbidden
    entry is not translated, so that it draws no anonymous name and
    creates nothing, and its kind does not matter. *)
Theorem forbidden_entries_are_never_translated st :
  (forall descs,
      descsToFields descs st =
      descsToFields (List.filter (fun kd => notForbidden (snd kd)) descs) st) /\
  (forall chs,
      inputFields chs st =
      inputFields (List.filter (fun kd => notForbidden (snd kd)) chs) st).
Proof.
  split.
  - intros descs. unfold descsToFields, descsToFieldsF.
    apply (mapValuesM_skip (fun d => presence d "forbidden")).
    intros d s Hd. unfold fieldOfF. rewrite Hd. reflexivity.
  - intros chs. unfold inputFields, inputFieldsF.
    apply (mapValuesM_skip (fun d => presence d "forbidden")
             (fun child =>
                if presence child "forbidden" then ret None
                else t <- descToType child true ;; ret (Some (InputField t)))).
    intros d s Hd. rewrite Hd. reflexivity.
Qed.

(** ** One cache for both positions *)

(** X8.  The cache is keyed by the computed name alone, prefix
    included, and not by the position.  Once an object description has
    been translated, its computed name is cached with the node the
    handler returned; every translation started from there keeps that
    entry; and an object description that computes the name while the
    cache holds that node under it, in either position, is given that
    node: an object named InputFilm translated in output position gets
    the input object that an object named Film translated in input
    position has created.  The name is taken to be one graphql-js
    accepts and the cache does not inherit. *)
Theorem computed_name_is_shared_across_positions d1 i1 d2 i2 st tn t st1 st2 :
  type d1 = "object" ->
  type d2 = "object" ->
  resultOf (typeNameOf d1 i1 st) = Some tn ->
  inherited tn = false -> graphqlName tn = true ->
  typeBeforeWrap d1 i1 st = Ok t st1 ->
  cachedTypes st2 !! tn = Some t ->
  resultOf (typeNameOf d2 i2 st2) = Some tn ->
  cachedTypes st1 !! tn = Some t /\
  (forall d3 i3,
      cachedTypes (stateOf (descToType d3 i3 st1)) !! tn = Some t) /\
  typeBeforeWrap d2 i2 st2 = Ok t (stateOf (typeNameOf d2 i2 st2)).
Proof.
  intros Hk1 Hk2 Hn1 _ _ Hrun Hc2 Hn2.
  assert (Hh1 : handlerOf (type d1) = Some Kobject) by now rewrite Hk1.
  assert (Hh2 : handlerOf (type d2) = Some Kobject) by now rewrite Hk2.
  destruct (typeNameOf_total d1 i1 st) as (tn1 & s1 & Ht1).
  rewrite Ht1 in Hn1. injection Hn1 as ->.
  rewrite (typeBeforeWrap_eq _ _ _ _ _ Ht1), (dispatch_kind _ _ _ _ _ Hh1)
    in Hrun.
  pose proof (object_stores _ _ _ _ _ _ Hrun) as Hc.
  split; [exact Hc |]. split.
  - intros d3 i3. pose proof (frames_descToType d3 i3 st1) as Hf.
    destruct (descToType d3 i3 st1) as [r s | e s]; cbn [framed stateOf] in *;
      [| destruct Hf as [Hf _]]; eapply extends_cached; eassumption.
  - destruct (typeNameOf_total d2 i2 st2) as (tn2 & s2 & Ht2).
    rewrite Ht2 in Hn2 |- *. injection Hn2 as ->. cbn [stateOf].
    eapply object_hit; eassumption.
Qed.

(** ** The roots of the schema *)

Lemma nodeAt_extends st st' r (n : node World) :
  extends st st' -> nodeAt st r = Some n -> nodeAt st' r = Some n.
Proof.
  destruct r; cbn [nodeAt]; try discriminate. apply extends_heap.
Qed.

Lemma nodeAt_new st st' r :
  extends st st' -> nodeAt st' r = None -> nodeAt st r = None.
Proof.
  intros He Hn. destruct (nodeAt st r) as [n |] eqn:Hr; [| reflexivity].
  rewrite (nodeAt_extends _ _ _ _ He Hr) in Hn. discriminate.
Qed.

Lemma root_run rootName (o : option (list (string * JoiDesc World)))
    st q st' :
  rootType rootName o st = Ok q st' ->
  extends st st' /\
  match o with
  | Some descs =>
      exists r fs,
        q = Some r /\
        nodeAt st' r = Some (GraphQLObjectType rootName None fs) /\
        map fst fs =
          map fst (List.filter (fun kd => notForbidden (snd kd)) descs) /\
        nodeAt st r = None
  | None => q = None /\ st' = st
  end.
Proof.
  unfold rootType. destruct o as [descs |].
  - intros Hrun. apply bind_inv_Ok in Hrun.
    destruct Hrun as (fs & s1 & Hfs & Hrun).
    unfold bind, new, ret in Hrun. injection Hrun as <- <-.
    pose proof (frames_descsToFields descs st) as He. rewrite Hfs in He.
    cbn [framed] in He.
    assert (He' : extends st
                    (State (idCounter s1) (cachedTypes s1)
                       (heap s1 ++ [GraphQLObjectType rootName None fs]))).
    { eapply extends_trans; [exact He |]. unfold extends. cbn [idCounter heap
        cachedTypes]. split; [lia | split; [now apply prefix_app_r |]].
      reflexivity. }
    split; [exact He' |]. exists (Ref (length (heap s1))), fs.
    split; [reflexivity |]. cbn [nodeAt heap]. split; [| split].
    + rewrite lookup_app_r by lia. now rewrite Nat.sub_diag.
    + eapply descsToFields_keys; eassumption.
    + apply lookup_ge_None. destruct He as (_ & Hp & _).
      apply prefix_length in Hp. lia.
  - intros [= <- <-]. split; [apply extends_refl | split; reflexivity].
Qed.

(** X9.  The attributes that lines 183-195 pass to the schema constructor
    hold a query root exactly when query descriptions are supplied, and
    a mutation root exactly when mutation descriptions are supplied.
    Each root is an object type created by this build, named
    RootQueryType (RootMutationType), without description, whose field
    names are the names of the descriptions that are not forbidden, in
    order; the two roots are different objects.  The schema of a build
    that returns is the schema of these attributes and has a query
    root: a build without query descriptions throws. *)
Theorem build_makes_one_root_per_operation (j : jois World) st :
  (forall attrs st',
      schemaAttrs j st = Ok attrs st' ->
      match jquery j with
      | Some qdescs =>
          exists rq fs,
            query attrs = Some rq /\
            nodeAt st' rq = Some (GraphQLObjectType "RootQueryType" None fs) /\
            map fst fs =
              map fst (List.filter (fun kd => notForbidden (snd kd))
                         qdescs) /\
            nodeAt st rq = None
      | None => query attrs = None
      end /\
      match jmutation j with
      | Some mdescs =>
          exists rm fs,
            mutation attrs = Some rm /\
            nodeAt st' rm =
              Some (GraphQLObjectType "RootMutationType" None fs) /\
            map fst fs =
              map fst (List.filter (fun kd => notForbidden (snd kd))
                         mdescs) /\
            nodeAt st rm = None
      | None => mutation attrs = None
      end /\
      (forall rq rm,
          query attrs = Some rq -> mutation attrs = Some rm -> rq <> rm)) /\
  (forall sch st',
      joiql j st = Ok sch st' ->
      schemaAttrs j st = Ok sch st' /\ exists rq, query sch = Some rq) /\
  (jquery j = None -> exists e st', joiql j st = Throw e st').
Proof.
  split; [| split].
  - intros attrs st'. unfold schemaAttrs. intros Hrun.
    apply bind_inv_Ok in Hrun.
    destruct Hrun as (q & s1 & Hq & Hrun). apply bind_inv_Ok in Hrun.
    destruct Hrun as (m & s2 & Hm & Hret). injection Hret as <- <-.
    apply root_run in Hq. destruct Hq as [Heq Hq].
    apply root_run in Hm. destruct Hm as [Hem Hm]. cbn [query mutation].
    split; [| split].
    + destruct (jquery j) as [qdescs |]; [| tauto].
      destruct Hq as (r & fs & -> & Hnode & Hkeys & Hnew).
      exists r, fs. split; [reflexivity |].
      split; [eapply nodeAt_extends; eassumption | split; assumption].
    + destruct (jmutation j) as [mdescs |]; [| tauto].
      destruct Hm as (r & fs & -> & Hnode & Hkeys & Hnew).
      exists r, fs. split; [reflexivity |]. split; [exact Hnode |].
      split; [exact Hkeys | eapply nodeAt_new; eassumption].
    + intros rq rm -> -> Heqr.
      destruct (jquery j); [| destruct Hq; discriminate].
      destruct (jmutation j); [| destruct Hm; discriminate].
      destruct Hq as (r & fs & [= <-] & Hnode & _ & _).
      destruct Hm as (r' & fs' & [= <-] & _ & _ & Hnew).
      rewrite <- Heqr in Hnew. rewrite Hnode in Hnew. discriminate.
  - intros sch st'. unfold joiql. intros Hrun. apply bind_inv_Ok in Hrun.
    destruct Hrun as (attrs & s1 & Hattrs & Hret).
    destruct (query attrs) as [rq |] eqn:Hq; [| discriminate].
    injection Hret as <- <-. split; [exact Hattrs | eauto].
  - intros Hq. unfold joiql, schemaAttrs. rewrite Hq. cbn [rootType].
    unfold bind at 1. unfold bind at 1. cbn [ret]. unfold bind at 1.
    destruct (rootType "RootMutationType" (jmutation j) st); cbn [ret query];
      eauto.
Qed.

(** ** The members of a union and its resolution *)

Lemma resolveTypeFrom_Some (its : list (JoiDesc World)) (types : list tyref)
    val : forall off t,
  resolveTypeFrom off its types val = Some t ->
  (exists item, In item its /\ matchesCandidate item val = true) /\
  In t types.
Proof.
  induction its as [| item its IH]; intros off t; cbn [resolveTypeFrom];
    [discriminate |].
  destruct (matchesCandidate item val) eqn:Hm.
  - destruct (types !! off) as [t' |] eqn:Ht.
    + intros [= <-]. split; [exists item; split; [now left | exact Hm] |].
      apply list_elem_of_In. eapply list_elem_of_lookup_2. exact Ht.
    + intros Hrec. destruct (IH _ _ Hrec) as [(item' & Hin & Hm') Ht'].
      split; [exists item'; split; [now right | exact Hm'] | exact Ht'].
  - intros Hrec. destruct (IH _ _ Hrec) as [(item' & Hin & Hm') Ht'].
    split; [exists item'; split; [now right | exact Hm'] | exact Ht'].
Qed.

Lemma resolveTypeFrom_matching (its : list (JoiDesc World))
    (types : list tyref) val : forall off,
  off + length its <= length types ->
  (exists item, In item its /\ matchesCandidate item val = true) ->
  exists t, resolveTypeFrom off its types val = Some t.
Proof.
  induction its as [| item its IH]; intros off Hlen (item' & Hin & Hm);
    [destruct Hin |].
  cbn [length] in Hlen. cbn [resolveTypeFrom].
  destruct (matchesCandidate item val) eqn:Hitem.
  - destruct (lookup_lt_is_Some_2 types off) as [t Ht]; [lia |].
    rewrite Ht. eauto.
  - destruct Hin as [-> | Hin]; [congruence |].
    apply IH; [lia | eauto].
Qed.

(** X10.  Line 114 translates every candidate, so that the member types
    of a union are as many as its candidates, and the member resolution
    of lines 131-138 answers with a member type exactly for the values
    that some candidate matches: a matching candidate is never left
    without its type, and a value no candidate matches resolves to
    nothing. *)
Theorem union_resolves_every_matching_value i (its : list (JoiDesc World))
    types st st2 val :
  mapM (fun item => descToType item i) its st = Ok types st2 ->
  length types = length its /\
  ((exists item, In item its /\ matchesCandidate item val = true) <->
   (exists t, resolveType its types val = Some t)) /\
  (forall t, resolveType its types val = Some t -> In t types).
Proof.
  intros Hrun. apply mapM_length in Hrun. split; [exact Hrun |].
  unfold resolveType. split; [split |].
  - apply resolveTypeFrom_matching. lia.
  - intros [t Ht]. now apply resolveTypeFrom_Some in Ht.
  - intros t Ht. now apply resolveTypeFrom_Some in Ht.
Qed.


(** ** Objects are created once, lists every time *)

(** X11.  An object description whose computed name is not cached (nor
    inherited by the cache) when its translation starts makes a new node
    of that name and of the node's description, and caches it under the
    name.  In input position
    the node is an input object with one field per non-forbidden child,
    typed by the child's translation in input position; in output
    position it is an object whose fields are those [descsToFields]
    gives for the children. *)
Theorem object_translation_creates_named_node d i st tn st1 t st' :
  type d = "object" ->
  typeNameOf d i st = Ok tn st1 ->
  inherited tn = false -> graphqlName tn = true ->
  cachedTypes st !! tn = None ->
  typeBeforeWrap d i st = Ok t st' ->
  nodeAt st t = None /\
  cachedTypes st' !! tn = Some t /\
  if i then
    exists fs,
      nodeAt st' t = Some (GraphQLInputObjectType tn (description d) fs) /\
      Forall2 (fun kd kf =>
                 fst kf = fst kd /\
                 exists ty s1 s2,
                   extends st s1 /\
                   descToType (snd kd) true s1 = Ok ty s2 /\
                   snd kf = InputField ty)
              (List.filter (fun kd => notForbidden (snd kd)) (children d)) fs
  else
    exists fs s2,
      descsToFields (children d) st1 = Ok fs s2 /\
      nodeAt st' t = Some (GraphQLObjectType tn (description d) fs).
Proof.
  intros Hk Hn _ _ Hc Hrun.
  assert (Hh : handlerOf (type d) = Some Kobject) by now rewrite Hk.
  rewrite (typeBeforeWrap_eq _ _ _ _ _ Hn), (dispatch_kind _ _ _ _ _ Hh)
    in Hrun.
  pose proof (frames_typeNameOf d i st) as He1. rewrite Hn in He1.
  cbn [framed] in He1.
  destruct (typeNameOf_state _ _ _ _ _ Hn) as [Hcs _].
  unfold handlers in Hrun. cbn [handlersF] in Hrun. unfold bind at 1 in Hrun.
  cbn [getCached] in Hrun. rewrite Hcs, Hc in Hrun.
  apply bind_inv_Ok in Hrun. destruct Hrun as (t' & s3 & Hmk & Hset).
  cbn in Hset. injection Hset as <- <-.
  assert (Hfresh : forall s2 (n : node World),
             extends st1 s2 ->
             nodeAt st (Ref (length (heap s2))) = None /\
             nodeAt (State (idCounter s2)
                       (<[tn := Ref (length (heap s2))]> (cachedTypes s2))
                       (heap s2 ++ [n]))
                    (Ref (length (heap s2))) = Some n).
  { intros s2 n He2. cbn [nodeAt heap]. split.
    - apply lookup_ge_None.
      destruct (extends_trans _ _ _ He1 He2) as (_ & Hp & _).
      apply prefix_length in Hp. lia.
    - rewrite lookup_app_r by lia. now rewrite Nat.sub_diag. }
  destruct i.
  - apply bind_inv_Ok in Hmk. destruct Hmk as (fs & s2 & Hfs & Hnew).
    unfold new in Hnew. injection Hnew as <- <-.
    pose proof (frames_inputFieldsF descToType frames_descToType
                  (children d) st1) as He2.
    rewrite Hfs in He2. cbn [framed] in He2.
    destruct (Hfresh s2 (GraphQLInputObjectType tn (description d) fs) He2)
      as [Hnew Hnode].
    split; [exact Hnew |]. split; [apply lookup_insert_eq |].
    exists fs. split; [exact Hnode |].
    unfold inputFieldsF in Hfs. apply bind_inv_Ok in Hfs.
    destruct Hfs as (bs & s2' & Hmap & Hret). injection Hret as <- ->.
    pose proof (mapValuesM_kept
                  (fun d => presence d "forbidden")
                  (fun d => ty <- descToType d true ;;
                            ret (@InputField World ty))
                  (fun child =>
                     if presence child "forbidden" then ret None
                     else ty <- descToType child true ;;
                          ret (Some (@InputField World ty)))) as Hkept.
    destruct (Hkept) with (l := children d) (st := st1) (bs := bs)
                          (st' := s2) as [_ HF]; [| | exact Hmap |].
    + intros x s. destruct (presence x "forbidden"); [reflexivity |].
      unfold bind, ret. destruct (descToType x true s); reflexivity.
    + intros x. apply frames_bind; [apply frames_descToType |].
      intros; apply frames_ret.
    + eapply Forall2_impl; [exact HF |].
      intros kd kf (Hkf & sa & sb & H1 & H2 & _). split; [exact Hkf |].
      apply bind_inv_Ok in H2. destruct H2 as (ty & sc & Hty & Hret).
      injection Hret as Hf <-. exists ty, sa, sc.
      split; [eapply extends_trans; eassumption | auto].
  - apply bind_inv_Ok in Hmk. destruct Hmk as (fs & s2 & Hfs & Hnew).
    unfold new in Hnew. injection Hnew as <- <-.
    pose proof (frames_descsToFields (children d) st1) as He2.
    unfold descsToFields in He2. rewrite Hfs in He2. cbn [framed] in He2.
    destruct (Hfresh s2 (GraphQLObjectType tn (description d) fs) He2)
      as [Hnew Hnode].
    split; [exact Hnew |]. split; [apply lookup_insert_eq |].
    exists fs, s2. split; [exact Hfs | exact Hnode].
Qed.

Lemma finish_list tn t st r st' :
  (cacheIfAbsent tn t ;;; new (GraphQLList t)) st = Ok r st' ->
  r = Ref (length (heap st)) /\ heap st' = heap st ++ [GraphQLList t].
Proof.
  unfold bind. rewrite cacheIfAbsent_run. unfold new. cbn [heap].
  intros [= <- <-]. split; reflexivity.
Qed.

Lemma array_run d i st r st' :
  type d = "array" ->
  List.filter notForbidden (items d) <> [] ->
  typeBeforeWrap d i st = Ok r st' ->
  (exists t, nodeAt st' r = Some (GraphQLList t)) /\ nodeAt st r = None.
Proof.
  intros Hk Hleft Hrun.
  assert (Hh : handlerOf (type d) = Some Karray) by now rewrite Hk.
  destruct (typeNameOf_total d i st) as (tn & s0 & Hn).
  pose proof (frames_typeNameOf d i st) as He0. rewrite Hn in He0.
  cbn [framed] in He0.
  assert (Hfin : exists tn' t s,
             extends s0 s /\
             (cacheIfAbsent tn' t ;;; new (GraphQLList t)) s = Ok r st').
  { destruct (List.filter notForbidden (items d)) as [| item [| item' its]]
      eqn:Hits; [now destruct Hleft | |].
    - rewrite (typeBeforeWrap_eq _ _ _ _ _ Hn), (dispatch_kind _ _ _ _ _ Hh),
        (array_single _ _ _ item) in Hrun by exact Hits.
      apply bind_inv_Ok in Hrun. destruct Hrun as (t & s1 & Ht & Hrun).
      pose proof (frames_descToType item i s0) as He1. rewrite Ht in He1.
      cbn [framed] in He1. exists tn, t, s1. split; assumption.
    - assert (Hlen : 1 < length (List.filter notForbidden (items d)))
        by (rewrite Hits; cbn; lia).
      pose proof (frames_compositeName i (List.filter notForbidden (items d))
                    s0) as He1.
      pose proof (compositeName_spec i (List.filter notForbidden (items d))
                    s0) as Hcn.
      rewrite Hcn in He1.
      rewrite (array_several_run _ _ _ _ _ _ _ Hh Hlen Hn Hcn) in Hrun.
      apply bind_inv_Ok in Hrun. destruct Hrun as (t & s2 & Ht & Hrun).
      match type of Ht with
      | makeArrayAlternativeType _ ?cn _ _ ?s1 = _ =>
          pose proof (frames_makeArrayAlternativeType i cn d
                        (List.filter notForbidden (items d)) s1) as He2
      end.
      rewrite Ht in He2. cbn [framed] in He1, He2.
      do 2 eexists. exists s2.
      split; [eapply extends_trans; eassumption | exact Hrun].
  }
  destruct Hfin as (tn' & t & s & He & Hfin).
  apply finish_list in Hfin. destruct Hfin as [-> Hheap].
  cbn [nodeAt]. split.
  - exists t. rewrite Hheap, lookup_app_r by lia. now rewrite Nat.sub_diag.
  - apply lookup_ge_None.
    destruct (extends_trans _ _ _ He0 He) as (_ & Hp & _).
    apply prefix_length in Hp. lia.
Qed.

(** X12.  Lists are not cached: every translation of an array
    description with an item left that is not forbidden ends by
    creating a new list node, whatever its name.  No operation of the
    translator removes or replaces an object, so that a translation of
    an array started with the objects of an earlier one still in the
    store never returns the node the earlier one returned. *)
Theorem array_translations_return_fresh_lists d1 i1 d2 i2 st r1 st1 st2 r2 st3 :
  type d1 = "array" ->
  type d2 = "array" ->
  List.filter notForbidden (items d1) <> [] ->
  List.filter notForbidden (items d2) <> [] ->
  typeBeforeWrap d1 i1 st = Ok r1 st1 ->
  heap st1 `prefix_of` heap st2 ->
  typeBeforeWrap d2 i2 st2 = Ok r2 st3 ->
  (exists t, nodeAt st1 r1 = Some (GraphQLList t)) /\
  nodeAt st r1 = None /\
  (exists t, nodeAt st3 r2 = Some (GraphQLList t)) /\
  r1 <> r2 /\
  (forall d i s, heap s `prefix_of` heap (stateOf (descToType d i s))) /\
  (forall tn t (s : state World),
      heap (stateOf (setCached tn t s)) = heap s) /\
  (forall tn t (s : state World),
      heap (stateOf (cacheIfAbsent tn t s)) = heap s) /\
  (forall (n : node World) s, heap s `prefix_of` heap (stateOf (new n s))).
Proof.
  intros Hk1 Hk2 Hl1 Hl2 Hrun1 Hext Hrun2.
  destruct (array_run _ _ _ _ _ Hk1 Hl1 Hrun1) as [[t1 Hn1] Hnew1].
  destruct (array_run _ _ _ _ _ Hk2 Hl2 Hrun2) as [[t2 Hn2] Hnew2].
  split; [eauto |]. split; [exact Hnew1 |]. split; [eauto |].
  split; [| split; [| split; [| split]]].
  - intros ->. destruct r2; cbn [nodeAt] in *; try discriminate.
    rewrite (prefix_lookup_Some _ _ _ _ Hn1 Hext) in Hnew2. discriminate.
  - intros d i s. pose proof (frames_descToType d i s) as Hf.
    destruct (descToType d i s); cbn [framed stateOf] in *;
      [| destruct Hf as [Hf _]]; apply Hf.
  - reflexivity.
  - intros tn t s. now rewrite cacheIfAbsent_run.
  - intros n s. cbn. now apply prefix_app_r.
Qed.

End Further.


(** * The further properties on concrete descriptions *)

(** ** X3 *)

Lemma anonymous_names_witness :
  unnamed (scalar "string") = true /\ unnamed (object []) = true /\
  idCounter (stateOf (typeNameOf (scalar "string") false st0)) = 1 /\
  resultOf (typeNameOf (scalar "string") false st0) <>
    resultOf (typeNameOf (object []) true (State 1 ∅ [])) /\
  typeNameOf film true st0 = Ok "InputFilm" st0.
Proof.
  split; [reflexivity |]. split; [reflexivity |].
  destruct (anonymous_names_are_fresh
              (scalar "string") false (object []) true st0 (State 1 ∅ [])
              eq_refl eq_refl (le_n 1)) as (Hstep & Hfresh & Hnamed).
  split; [exact Hstep |]. split; [exact Hfresh |].
  apply (Hnamed film true "Film"); [reflexivity | discriminate].
Defined.

(** ** X4 *)

Lemma scalar_kinds_witness :
  descToType (scalar "boolean") true st0 = Ok GraphQLBoolean (State 1 ∅ []) /\
  descToType (named "Since" (scalar "date")) false st0 =
    Ok GraphQLString st0 /\
  descToType integer true st0 = Ok GraphQLInt (State 1 ∅ []) /\
  descToType (scalar "number") false st0 = Ok GraphQLFloat (State 1 ∅ []).
Proof.
  split; [| split; [| split]].
  - apply (proj1 (scalar_kinds_translate_to_scalars
                    (scalar "boolean") true st0 eq_refl) eq_refl).
  - apply (proj1 (proj2 (scalar_kinds_translate_to_scalars
                           (named "Since" (scalar "date")) false st0 eq_refl))
             (or_introl eq_refl)).
  - apply (proj1 (proj2 (proj2 (scalar_kinds_translate_to_scalars
                                  integer true st0 eq_refl))) eq_refl).
  - apply (proj1 (proj2 (proj2 (scalar_kinds_translate_to_scalars
                                  (scalar "number") false st0 eq_refl)))
             eq_refl).
Defined.

(** ** X5 *)

Lemma resolver_without_resolve_witness :
  (exists e,
      validatedResolve validateId helloUnresolved alien
        (VObj [("id", VNum 1)]) VNull (infoFor "title") 0 = Throw e 0 /\
      isGenericInvocationError e = true) /\
  (exists e,
      validatedResolve validateId helloUnresolved alien
        (VObj [("id", VStr "x")]) VNull (infoFor "title") 0 = Throw e 0 /\
      e = ValidationError "must be a number") /\
  validatedResolve validateId helloUnresolved VNull (VObj []) VNull
    (infoFor "title") 0 = Ok VNull 0 /\
  validatedResolve validateId helloUnresolved alien VUndefined VNull
    (infoFor "title") 0 = Ok (VStr "Alien") 0 /\
  validatedResolve validateId helloUnresolved alien VUndefined VNull
    (infoFor "year") 0 = Ok VUndefined 0.
Proof.
  split; [| split; [| split; [| split]]].
  - apply (proj1 (resolver_without_resolve_function
                    validateId helloUnresolved alien
                    (VObj [("id", VNum 1)]) VNull (infoFor "title") 0
                    eq_refl) eq_refl).
    discriminate.
  - apply (proj1 (resolver_without_resolve_function
                    validateId helloUnresolved alien
                    (VObj [("id", VStr "x")]) VNull (infoFor "title") 0
                    eq_refl) eq_refl).
    discriminate.
  - apply (proj1 (proj2 (resolver_without_resolve_function
                           validateId helloUnresolved VNull
                           (VObj []) VNull (infoFor "title") 0
                           eq_refl) eq_refl) eq_refl).
  - apply (proj1 (proj2 (proj2 (resolver_without_resolve_function
                                  validateId helloUnresolved alien
                                  VUndefined VNull (infoFor "title") 0
                                  eq_refl) eq_refl))
             [("title", VStr "Alien")] "title" eq_refl eq_refl eq_refl).
  - apply (proj1 (proj2 (proj2 (resolver_without_resolve_function
                                  validateId helloUnresolved alien
                                  VUndefined VNull (infoFor "year") 0
                                  eq_refl) eq_refl))
             [("title", VStr "Alien")] "year" eq_refl eq_refl eq_refl).
Defined.

(** ** X6 *)

Lemma field_configurations_witness :
  Forall2 (fun kd kf =>
             fst kf = fst kd /\
             exists t a s1 s2 s3,
               extends st0 s1 /\
               descToType (snd kd) false s1 = Ok t s2 /\
               descToArgs (snd kd) s2 = Ok a s3 /\
               extends s3 (State 2 ∅ []) /\
               snd kf = fieldFor (snd kd) t a)
          (List.filter (fun kd => notForbidden (snd kd)) account)
          [("login", Field GraphQLString None "" (scalar "string"));
           ("active", Field GraphQLBoolean None "" (scalar "boolean"))] /\
  (exists l,
      Some [("term", GraphQLString)] = Some l /\
      Forall2 (fun ks kt =>
                 fst kt = fst ks /\
                 exists s1 s2,
                   extends st0 s1 /\
                   descToType (snd ks) true s1 = Ok (snd kt) s2 /\
                   extends s2 (State 1 ∅ []))
              (List.filter (fun ks => notForbidden (snd ks))
                 [("term", scalar "string");
                  ("debug", forbidden_ (scalar "boolean"))])
              l).
Proof.
  destruct (field_configurations_follow_their_descriptions st0)
    as [Hfields Hargs].
  split.
  - apply (Hfields account _ (State 2 ∅ [])). reflexivity.
  - apply (Hargs search (Some [("term", GraphQLString)]) (State 1 ∅ [])).
    reflexivity.
Defined.

(** ** X7 *)

Example forbidden_entries_are_skipped :
  descsToFields withForbiddenBlob st0 =
    descsToFields [("login", scalar "string")] st0 /\
  inputFields account st0 =
    inputFields [("login", scalar "string"); ("active", scalar "boolean")]
                st0.
Proof. split; reflexivity. Qed.

(** ** X8 *)

Lemma computed_name_shared_witness :
  cachedTypes stInputFilm !! "InputFilm" = Some (Ref 0) /\
  cachedTypes (stateOf (descToType person false stInputFilm)) !! "InputFilm" =
    Some (Ref 0) /\
  typeBeforeWrap inputFilm false stInputFilm = Ok (Ref 0) stInputFilm.
Proof.
  destruct (computed_name_is_shared_across_positions
              film true inputFilm false st0 "InputFilm" (Ref 0)
              stInputFilm stInputFilm
              eq_refl eq_refl eq_refl eq_refl eq_refl eq_refl eq_refl eq_refl)
    as (Hstored & Hkeeps & Hshared).
  split; [exact Hstored |]. split; [apply (Hkeeps person false) |].
  exact Hshared.
Defined.

Example input_object_in_output_position :
  nodeAt stInputFilm (Ref 0) =
    Some (GraphQLInputObjectType "InputFilm" None
            [("title", InputField GraphQLString)]) /\
  resultOf (descToType inputFilm false stInputFilm) = Some (Ref 0).
Proof. split; reflexivity. Qed.

(** ** X9 *)

Lemma build_roots_witness :
  (exists rq fs,
      Some (Ref 0) = Some rq /\
      nodeAt (stateOf (joiql accountApi st0)) rq =
        Some (GraphQLObjectType "RootQueryType" None fs) /\
      map fst fs =
        map fst (List.filter (fun kd => notForbidden (snd kd)) account) /\
      nodeAt st0 rq = None) /\
  (exists rm fs,
      Some (Ref 1) = Some rm /\
      nodeAt (stateOf (joiql accountApi st0)) rm =
        Some (GraphQLObjectType "RootMutationType" None fs) /\
      map fst fs =
        map fst (List.filter (fun kd => notForbidden (snd kd))
                   [("hello", hello)]) /\
      nodeAt st0 rm = None) /\
  (forall rq rm,
      Some (Ref 0) = Some rq -> Some (Ref 1) = Some rm -> rq <> rm) /\
  schemaAttrs accountApi st0 =
    Ok (Schema (Some (Ref 0)) (Some (Ref 1))) (stateOf (joiql accountApi st0)).
Proof.
  destruct (build_makes_one_root_per_operation accountApi st0)
    as (Hattrs & Hbuild & _).
  destruct (Hbuild (Schema (Some (Ref 0)) (Some (Ref 1)))
              (stateOf (joiql accountApi st0)) eq_refl) as [Hrun _].
  destruct (Hattrs _ _ Hrun) as (Hquery & Hmutation & Hdiff).
  split; [exact Hquery |]. split; [exact Hmutation |].
  split; [exact Hdiff | exact Hrun].
Defined.

Example build_without_query :
  joiql (Jois None (Some [("hello", hello)])) st0 =
    Throw (LibraryError "Schema query must be Object Type")
          (stateOf (joiql (Jois None (Some [("hello", hello)])) st0)) /\
  joiql (Jois None None) st0 =
    Throw (LibraryError "Schema query must be Object Type") st0.
Proof. split; reflexivity. Qed.

(** ** X10 *)

Lemma union_resolves_witness :
  length [Ref 0; Ref 1] = length [byKeys; byPredicate] /\
  (exists t,
      resolveType [byKeys; byPredicate] [Ref 0; Ref 1]
                  (VObj [("z", VNum 0)]) = Some t) /\
  (forall t,
      resolveType [byKeys; byPredicate] [Ref 0; Ref 1]
                  (VObj [("z", VNum 0)]) = Some t ->
      In t [Ref 0; Ref 1]).
Proof.
  destruct (union_resolves_every_matching_value
              false [byKeys; byPredicate] [Ref 0; Ref 1] st0
              (stateOf (mapM (fun item => descToType item false)
                             [byKeys; byPredicate] st0))
              (VObj [("z", VNum 0)]) eq_refl)
    as (Hlen & Hmatch & Hmember).
  split; [exact Hlen |]. split; [| exact Hmember].
  apply Hmatch. exists byPredicate. split; [right; left |]; reflexivity.
Defined.

(** ** X11 *)

Lemma object_creation_witness :
  nodeAt st0 (Ref 0) = None /\
  cachedTypes stInputFilm !! "InputFilm" = Some (Ref 0) /\
  exists fs,
    nodeAt stInputFilm (Ref 0) =
      Some (GraphQLInputObjectType "InputFilm" (description film) fs) /\
    Forall2 (fun kd kf =>
               fst kf = fst kd /\
               exists ty s1 s2,
                 extends st0 s1 /\
                 descToType (snd kd) true s1 = Ok ty s2 /\
                 snd kf = InputField ty)
            (List.filter (fun kd => notForbidden (snd kd)) (children film))
            fs.
Proof.
  apply (object_translation_creates_named_node
           film true st0 "InputFilm" st0 (Ref 0) stInputFilm);
    reflexivity.
Defined.

(** ** X12 *)

Lemma fresh_lists_witness :
  (exists t,
      nodeAt (stateOf (descToType tags false st0)) (Ref 0) =
        Some (GraphQLList t)) /\
  nodeAt st0 (Ref 0) = None /\
  (exists t,
      nodeAt (stateOf (descToType tags false
                         (stateOf (descToType tags false st0))))
             (Ref 1) = Some (GraphQLList t)) /\
  Ref 0 <> Ref 1.
Proof.
  destruct (array_translations_return_fresh_lists
              tags false tags false st0 (Ref 0)
              (stateOf (descToType tags false st0))
              (stateOf (descToType tags false st0)) (Ref 1)
              (stateOf (descToType tags false
                          (stateOf (descToType tags false st0)))))
    as (Hfirst & Hnew & Hsecond & Hdiff & _);
    [reflexivity | reflexivity | discriminate | discriminate | reflexivity
    | reflexivity | reflexivity |].
  repeat split; assumption.
Defined.
